(** * geventconnpool: a shallow embedding of [pool.py] and [exceptions.py]

    The pool is a record, the code between two suspension points of the
    cooperative scheduler is a state-passing function on it, and the
    interleaving of greenlets is a labelled step relation built from those
    functions.  The hooks a subclass overrides ([_new_connection],
    [_keepalive], [_close_connection]) are a type class over the
    application's own state. *)

From Stdlib Require Import String.
From Stdlib Require Import List ZArith QArith Lia Bool Arith Permutation.
Import ListNotations.
Open Scope string_scope.
Open Scope list_scope.
Open Scope nat_scope.

(** ** Exceptions *)

(** The exception classes the two modules name or can raise, and the
    application's own ones ([AppError n]). *)
Inductive exc_class : Type :=
| Exception_
| TypeError
| ValueError
| IndexError
| UnboundLocalError
| NotImplementedError
| socket_error
| PoolError
| ClosedPoolError
| AppError (n : nat).

Lemma exc_class_eq_dec (a b : exc_class) : {a = b} + {a <> b}.
Proof. decide equality. apply Nat.eq_dec. Defined.

Definition exc_class_eqb (a b : exc_class) : bool :=
  if exc_class_eq_dec a b then true else false.

(** [class ClosedPoolError(PoolError)], [class PoolError(Exception)]. *)
Definition base (c : exc_class) : option exc_class :=
  match c with
  | Exception_ => None
  | ClosedPoolError => Some PoolError
  | _ => Some Exception_
  end.

Fixpoint issubclass_upto (depth : nat) (c d : exc_class) : bool :=
  exc_class_eqb c d ||
  match depth, base c with
  | S depth', Some b => issubclass_upto depth' b d
  | _, _ => false
  end.

Definition issubclass : exc_class -> exc_class -> bool := issubclass_upto 2.

Record exn : Type := mk_exn { exn_class : exc_class; exn_message : string }.

(** [except classes:] catches an instance of any listed class or of a
    subclass of one. *)
Definition matches (classes : list exc_class) (e : exn) : bool :=
  existsb (issubclass (exn_class e)) classes.

(** Positional arguments [__init__] requires besides [self]:
    [PoolError.__init__(self, pool, message)], inherited unchanged by
    [ClosedPoolError]; the built-in classes accept any arguments. *)
Definition init_arity (c : exc_class) : option nat :=
  match c with
  | PoolError | ClosedPoolError => Some 2
  | _ => None
  end.

(** [cls(args)]: the call itself raises [TypeError] when [__init__] is
    given the wrong number of arguments. *)
Definition instantiate (c : exc_class) (args : list string) : exn :=
  match init_arity c with
  | Some n =>
      if length args =? n
      then mk_exn c (String.concat ": " args)
      else mk_exn TypeError "__init__() takes exactly 3 arguments"
  | None => mk_exn c (String.concat ", " args)
  end.

(** ** Results of a block of code *)

Inductive res (A : Type) : Type :=
| Ret (a : A)          (* normal completion *)
| Raise (e : exn)      (* an exception escapes *)
| Blocked              (* the greenlet waits on the semaphore *)
| OutOfFuel.           (* the model's bound on a [while True] ran out *)
Arguments Ret {A} a.
Arguments Raise {A} e.
Arguments Blocked {A}.
Arguments OutOfFuel {A}.

(** ** gevent's BoundedSemaphore *)

Record BoundedSemaphore : Type :=
  mk_sem { counter : nat; initial_value : nat }.

(** [acquire()] takes a permit, or waits when there is none ([None]). *)
Definition sem_acquire (l : BoundedSemaphore) : option BoundedSemaphore :=
  match counter l with
  | O => None
  | S k => Some (mk_sem k (initial_value l))
  end.

(** [release()] raises [ValueError] when released above the initial value. *)
Definition sem_release (l : BoundedSemaphore) : exn + BoundedSemaphore :=
  if initial_value l <=? counter l
  then inl (mk_exn ValueError "Semaphore released too many times")
  else inr (mk_sem (S (counter l)) (initial_value l)).

(** ** The pool *)

Definition Handle : Type := nat.

Inductive task : Type := AddOne | KeepalivePeriodic.

Record ConnectionPool : Type := mk_pool {
  closed : bool;
  size : nat;
  conn : list Handle;               (* deque: front is the head *)
  lock : BoundedSemaphore;
  keepalive : option Q;
  exc_classes : list exc_class
}.

(** What a greenlet does to the world outside the pool. *)
Inductive event : Type :=
| EvNewConnection
| EvCloseConnection (c : Handle)
| EvSleep (seconds : Q).

(** The state the code runs on: the pool, the application's own state, the
    hub's timers ([gevent.spawn_later], [gevent.spawn] with delay 0) and the
    history of hook calls and sleeps. *)
Record st (W : Type) : Type := mk_st {
  pool : ConnectionPool;
  app : W;
  timers : list (Q * task);
  history : list event
}.
Arguments mk_st {W}.
Arguments pool {W}.
Arguments app {W}.
Arguments timers {W}.
Arguments history {W}.

(** The methods a subclass implements. *)
Class Hooks (W : Type) : Type := {
  _new_connection : W -> res (option Handle) * W;   (* [None]: a falsy result *)
  _keepalive : Handle -> W -> res unit * W;
  _close_connection : Handle -> W -> res unit * W
}.

(** The base class: two hooks raise [NotImplementedError], the third is
    [pass]. *)
Definition BaseHooks (W : Type) : Hooks W := {|
  _new_connection := fun w => (Raise (mk_exn NotImplementedError ""), w);
  _keepalive := fun _ w => (Raise (mk_exn NotImplementedError ""), w);
  _close_connection := fun _ w => (Ret tt, w)
|}.

(** ** A state and exception monad *)

Definition M (W A : Type) : Type := st W -> res A * st W.

Definition ret {W A} (a : A) : M W A := fun s => (Ret a, s).
Definition raise {W A} (e : exn) : M W A := fun s => (Raise e, s).

Definition bind {W A B} (m : M W A) (k : A -> M W B) : M W B :=
  fun s =>
    match m s with
    | (Ret a, s') => k a s'
    | (Raise e, s') => (Raise e, s')
    | (Blocked, s') => (Blocked, s')
    | (OutOfFuel, s') => (OutOfFuel, s')
    end.

Notation "x <- m ;; k" := (bind m (fun x => k))
  (at level 61, m at next level, right associativity).
Notation "m ;;; k" := (bind m (fun _ => k))
  (at level 61, right associativity).

(** [try: m except classes: handler]. *)
Definition try_except {W A} (m : M W A) (classes : list exc_class)
  (handler : exn -> M W A) : M W A :=
  fun s =>
    match m s with
    | (Raise e, s') => if matches classes e then handler e s' else (Raise e, s')
    | r => r
    end.

Definition get_pool {W} : M W ConnectionPool := fun s => (Ret (pool s), s).

Definition set_pool {W} (p : ConnectionPool) : M W unit :=
  fun s => (Ret tt, mk_st p (app s) (timers s) (history s)).

Definition log_event {W} (ev : event) : M W unit :=
  fun s => (Ret tt, mk_st (pool s) (app s) (timers s) (history s ++ [ev])).

Definition with_conn (p : ConnectionPool) (q : list Handle) : ConnectionPool :=
  mk_pool (closed p) (size p) q (lock p) (keepalive p) (exc_classes p).

Definition with_lock (p : ConnectionPool) (l : BoundedSemaphore) : ConnectionPool :=
  mk_pool (closed p) (size p) (conn p) l (keepalive p) (exc_classes p).

Definition with_closed (p : ConnectionPool) (b : bool) : ConnectionPool :=
  mk_pool b (size p) (conn p) (lock p) (keepalive p) (exc_classes p).

(** [self.lock.acquire()] *)
Definition lock_acquire {W} : M W unit :=
  fun s =>
    match sem_acquire (lock (pool s)) with
    | Some l => set_pool (with_lock (pool s) l) s
    | None => (Blocked, s)
    end.

(** [self.lock.release()] *)
Definition lock_release {W} : M W unit :=
  fun s =>
    match sem_release (lock (pool s)) with
    | inr l => set_pool (with_lock (pool s) l) s
    | inl e => (Raise e, s)
    end.

(** [self.conn.append(c)] *)
Definition conn_append {W} (c : Handle) : M W unit :=
  fun s => set_pool (with_conn (pool s) (conn (pool s) ++ [c])) s.

(** [gevent.sleep(seconds)] *)
Definition sleep {W} (seconds : Q) : M W unit := log_event (EvSleep seconds).

(** [gevent.spawn_later(seconds, t)] *)
Definition spawn_later {W} (seconds : Q) (t : task) : M W unit :=
  fun s => (Ret tt, mk_st (pool s) (app s) (timers s ++ [(seconds, t)]) (history s)).

Section Pool.

Context {W : Type} {hooks : Hooks W}.

(** A hook called on the application's state. *)
Definition call_hook {A} (ev : event) (h : W -> res A * W) : M W A :=
  fun s =>
    let (r, w) := h (app s) in
    (r, mk_st (pool s) w (timers s) (history s ++ [ev])).

Definition new_connection : M W (option Handle) :=
  call_hook EvNewConnection _new_connection.

Definition close_connection (c : Handle) : M W unit :=
  call_hook (EvCloseConnection c) (_close_connection c).

(** *** [_add_one] *)

Definition Qlt_bool (x y : Q) : bool := negb (Qle_bool y x).

(** [if stime < 400: stime *= 2] *)
Definition next_stime (stime : Q) : Q :=
  if Qlt_bool stime 400 then (stime * 2)%Q else stime.

(** The [while True] loop of [_add_one]; [fuel] bounds the attempts. *)
Fixpoint _add_one_loop (fuel : nat) (stime : Q) : M W Handle :=
  match fuel with
  | O => fun s => (OutOfFuel, s)
  | S fuel' =>
      c <- new_connection ;;
      match c with
      | Some h => ret h
      | None => sleep stime ;;; _add_one_loop fuel' (next_stime stime)
      end
  end.

(** The two statements after the loop. *)
Definition _add_one_finish (c : Handle) : M W unit :=
  conn_append c ;;; lock_release.

Definition _add_one (fuel : nat) : M W unit :=
  c <- _add_one_loop fuel (1 # 10)%Q ;;
  _add_one_finish c.

(** *** [get]

    The generator behind [@contextmanager] runs up to its [yield] when the
    [with] block is entered and from the [yield] on when it is left. *)

(** [if self.closed: raise ClosedPoolError()] *)
Definition get_check : M W unit :=
  p <- get_pool ;;
  if closed p then raise (instantiate ClosedPoolError []) else ret tt.

(** [self.lock.acquire()], where the caller may wait, then [popleft]. *)
Definition get_acquire : M W Handle :=
  lock_acquire ;;;
  p <- get_pool ;;
  match conn p with
  | c :: q => set_pool (with_conn p q) ;;; ret c
  | [] =>
      (* [popleft] raises IndexError inside the [try]; whichever handler
         takes it evaluates the unbound local [c] *)
      raise (mk_exn UnboundLocalError
               "local variable 'c' referenced before assignment")
  end.

Definition get_enter : M W Handle := get_check ;;; get_acquire.

(** Leaving the [with] block, [r] being how its body ended. *)
Definition get_exit {A} (c : Handle) (r : res A) : M W A :=
  match r with
  | Raise e =>
      p <- get_pool ;;
      if matches (exc_classes p) e
      then
        close_connection c ;;;
        spawn_later 1 AddOne ;;;
        raise e
      else
        conn_append c ;;;
        lock_release ;;;
        raise e
  | Ret a =>
      conn_append c ;;;
      lock_release ;;;
      ret a
  | Blocked => fun s => (Blocked, s)
  | OutOfFuel => fun s => (OutOfFuel, s)
  end.

(** [with self.get() as c: body(c)], run without interruption. *)
Definition with_get {A} (body : Handle -> M W A) : M W A :=
  c <- get_enter ;;
  fun s => let (r, s') := body c s in get_exit c r s'.

(** *** [close] *)

Definition close_one : M W unit :=
  p <- get_pool ;;
  try_except (with_get close_connection) (exc_classes p) (fun _ => ret tt).

Fixpoint close_loop (n : nat) : M W unit :=
  match n with
  | O => ret tt
  | S n' => close_one ;;; close_loop n'
  end.

Definition close : M W unit :=
  p <- get_pool ;;
  if closed p then ret tt
  else
    close_loop (size p) ;;;
    p <- get_pool ;;
    set_pool (with_closed p true).

(** *** [__init__] *)

Definition SPAWN_FREQUENCY : Q := (1 # 10)%Q.

Fixpoint acquire_all (n : nat) : M W unit :=
  match n with
  | O => ret tt
  | S n' => lock_acquire ;;; acquire_all n'
  end.

(** [for i in xrange(size): gevent.spawn_later(SPAWN_FREQUENCY*i, self._add_one)],
    from [i] on. *)
Fixpoint spawn_all (i n : nat) : M W unit :=
  match n with
  | O => ret tt
  | S n' =>
      spawn_later (SPAWN_FREQUENCY * inject_Z (Z.of_nat i))%Q AddOne ;;;
      spawn_all (S i) n'
  end.

(** [if self.keepalive:] is false for [None] and for zero. *)
Definition truthy_keepalive (k : option Q) : bool :=
  match k with
  | Some q => negb (Qeq_bool q 0)
  | None => false
  end.

Definition init_body (p : ConnectionPool) : M W unit :=
  acquire_all (size p) ;;;
  spawn_all 0 (size p) ;;;
  if truthy_keepalive (keepalive p) then spawn_later 0 KeepalivePeriodic else ret tt.

Definition ConnectionPool_init (sz : nat) (classes : list exc_class)
  (ka : option Q) (w : W) : res unit * st W :=
  let p := mk_pool false sz [] (mk_sem sz sz) ka classes in
  init_body p (mk_st p w [] []).

End Pool.

(** ** [retry] *)

Inductive log_template : Type := retry_log_message | max_failure_log_message.

(** What the wrapper itself does, in order: it calls [f], logs, sleeps and
    counts. *)
Inductive retry_event : Type :=
| RInvoke
| RLog (level : Z) (template : log_template) (e : exn)
| RSleep (seconds : Q)
| RFailures (value : Z).

(** The keyword arguments of [retry]; [None] is Python's [None]. *)
Record retry_args : Type := mk_retry_args {
  r_exc_classes : list exc_class;
  logger : option string;
  retry_log_level : Z;
  max_failures : option Z;
  interval : Q;
  max_failure_log_level : Z
}.

Definition logging_INFO : Z := 20.
Definition logging_ERROR : Z := 40.
Definition DEFAULT_EXC_CLASSES : list exc_class := [socket_error].

(** [retry(f)] with every keyword argument left at its default. *)
Definition default_retry_args : retry_args :=
  mk_retry_args DEFAULT_EXC_CLASSES None logging_INFO None 0 logging_ERROR.

Section Retry.

Context {W A : Type}.
Variable f : M W A.
Variable a : retry_args.

(** [if logger is not None: logger.log(level, template.format(f=..., e=e))] *)
Definition log_if_logger (level : Z) (template : log_template) (e : exn)
  : list retry_event :=
  match logger a with
  | Some _ => [RLog level template e]
  | None => []
  end.

(** [max_failures is not None and failures > max_failures] *)
Definition exhausted (failures : Z) : bool :=
  match max_failures a with
  | Some m => (m <? failures)%Z
  | None => false
  end.

(** The [while True] of [deco], entered with the local [failures]. *)
Fixpoint deco_loop (fuel : nat) (failures : Z) (s : st W)
  : res A * st W * list retry_event :=
  match fuel with
  | O => (OutOfFuel, s, [])
  | S fuel' =>
      match f s with
      | (Raise e, s') =>
          if matches (r_exc_classes a) e
          then
            let failures' := (failures + 1)%Z in
            let before :=
              [RInvoke] ++ log_if_logger (retry_log_level a) retry_log_message e
                ++ [RSleep (interval a); RFailures failures'] in
            if exhausted failures'
            then
              (Raise e, s',
               before ++ log_if_logger (max_failure_log_level a)
                           max_failure_log_message e)
            else
              let '(r, s'', after) := deco_loop fuel' failures' s' in
              (r, s'', before ++ after)
          else (Raise e, s', [RInvoke])
      | (r, s') => (r, s', [RInvoke])
      end
  end.

(** [deco]: [failures = 0], then the loop. *)
Definition deco (fuel : nat) (s : st W) : res A * st W * list retry_event :=
  deco_loop fuel 0%Z s.

End Retry.

Definition retry {W A} (f : M W A) (a : retry_args) := deco f a.

Definition is_invoke (ev : retry_event) : bool :=
  match ev with RInvoke => true | _ => false end.

Definition is_log_of (t : log_template) (ev : retry_event) : bool :=
  match ev, t with
  | RLog _ retry_log_message _, retry_log_message => true
  | RLog _ max_failure_log_message _, max_failure_log_message => true
  | _, _ => false
  end.

Definition is_sleep (ev : retry_event) : bool :=
  match ev with RSleep _ => true | _ => false end.

Definition is_counter (ev : retry_event) : bool :=
  match ev with RFailures _ => true | _ => false end.

Definition invocations (t : list retry_event) : nat :=
  List.length (filter is_invoke t).

Definition logged (tpl : log_template) (t : list retry_event) : nat :=
  List.length (filter (is_log_of tpl) t).

(** [n] calls of [f] in a row, each raising an exception of the designated
    classes: the last exception ([last] when [n] is 0) and the state left. *)
Fixpoint fail_run {W A} (f : M W A) (classes : list exc_class) (n : nat)
  (last : option exn) (s : st W) : option (option exn * st W) :=
  match n with
  | O => Some (last, s)
  | S n' =>
      match f s with
      | (Raise e, s1) =>
          if matches classes e then fail_run f classes n' (Some e) s1 else None
      | _ => None
      end
  end.

(** ** The greenlets of one pool, interleaved *)

Section System.

Context {W : Type} {hooks : Hooks W}.

(** The pool's state, the handles the [with] blocks in progress hold, and
    the number of [_add_one] greenlets that have started. *)
Record sys : Type := mk_sys {
  cur : st W;
  held : list Handle;
  adding : nat
}.

Definition is_add_one (x : Q * task) : bool :=
  match snd x with AddOne => true | KeepalivePeriodic => false end.

(** [_add_one] greenlets scheduled and not yet started. *)
Definition scheduled (s : st W) : nat :=
  List.length (filter is_add_one (timers s)).

(** Connections being created: scheduled or running [_add_one]. *)
Definition in_flight (y : sys) : nat := scheduled (cur y) + adding y.

Definition with_timers (s : st W) (ts : list (Q * task)) : st W :=
  mk_st (pool s) (app s) ts (history s).

Definition with_app (s : st W) (w : W) : st W :=
  mk_st (pool s) w (timers s) (history s).

Inductive label : Type :=
| LStart (t : task)
| LAddRetry
| LAddDie (e : exn)
| LAddFinish (c : Handle) (r : res unit)
| LCheckRaise (e : exn)
| LEnter (c : Handle)
| LEnterRaise (e : exn)
| LExit (c : Handle) (r r' : res unit)
| LApp
| LClosed.

(** One greenlet runs from one suspension point to the next.  A hook's own
    waiting is not split from the statements around it: a hook acts on
    [app] only, which [step_app] lets change at any time.  A caller of [get]
    passes the [closed] test when it calls and takes its permit when there is
    one, maybe later: [step_enter] does not look at [closed] again.
    [_keepalive_periodic] and [close] take and give back handles through
    [get] like any caller, so their moves are the enter and exit steps; the
    end of a [close()] is [step_closed]. *)
Inductive step : sys -> label -> sys -> Prop :=
| step_start_add y d ts1 ts2 :
    timers (cur y) = ts1 ++ (d, AddOne) :: ts2 ->
    step y (LStart AddOne)
      (mk_sys (with_timers (cur y) (ts1 ++ ts2)) (held y) (S (adding y)))
| step_start_keepalive y d ts1 ts2 :
    timers (cur y) = ts1 ++ (d, KeepalivePeriodic) :: ts2 ->
    step y (LStart KeepalivePeriodic)
      (mk_sys (with_timers (cur y) (ts1 ++ ts2)) (held y) (adding y))
| step_add_retry y k stime s1 s2 :
    adding y = S k ->
    new_connection (cur y) = (Ret None, s1) ->
    sleep stime s1 = (Ret tt, s2) ->
    step y LAddRetry (mk_sys s2 (held y) (adding y))
| step_add_die y k e s1 :
    adding y = S k ->
    new_connection (cur y) = (Raise e, s1) ->
    step y (LAddDie e) (mk_sys s1 (held y) k)
| step_add_finish y k c s1 r s2 :
    adding y = S k ->
    new_connection (cur y) = (Ret (Some c), s1) ->
    _add_one_finish c s1 = (r, s2) ->
    step y (LAddFinish c r) (mk_sys s2 (held y) k)
| step_check_raise y e s1 :
    get_check (cur y) = (Raise e, s1) ->
    step y (LCheckRaise e) (mk_sys s1 (held y) (adding y))
| step_enter y c s1 :
    get_acquire (cur y) = (Ret c, s1) ->
    step y (LEnter c) (mk_sys s1 (c :: held y) (adding y))
| step_enter_raise y e s1 :
    get_acquire (cur y) = (Raise e, s1) ->
    step y (LEnterRaise e) (mk_sys s1 (held y) (adding y))
| step_exit y c h1 h2 r r' s1 :
    held y = h1 ++ c :: h2 ->
    (r = Ret tt \/ exists e, r = Raise e) ->
    get_exit c r (cur y) = (r', s1) ->
    step y (LExit c r r') (mk_sys s1 (h1 ++ h2) (adding y))
| step_app y w :
    step y LApp (mk_sys (with_app (cur y) w) (held y) (adding y))
| step_closed y :
    step y LClosed
      (mk_sys (mk_st (with_closed (pool (cur y)) true) (app (cur y))
                 (timers (cur y)) (history (cur y)))
         (held y) (adding y)).

(** The states a pool of [C] slots can be in. *)
Inductive reachable (C : nat) : sys -> Prop :=
| reachable_init classes ka w s0 :
    ConnectionPool_init C classes ka w = (Ret tt, s0) ->
    reachable C (mk_sys s0 [] 0)
| reachable_step y l y' :
    reachable C y -> step y l y' -> reachable C y'.

End System.

Arguments sys W : clear implicits.

(** ** A scripted application, to run the code on *)

(** The results of the successive [_new_connection] calls (a falsy result
    once the script is over) and what [_close_connection] does. *)
Record script : Type := mk_script {
  creates : list (res (option Handle));
  close_result : res unit
}.

#[global] Instance ScriptedHooks : Hooks script := {|
  _new_connection := fun w =>
    match creates w with
    | [] => (Ret None, w)
    | r :: rest => (r, mk_script rest (close_result w))
    end;
  _keepalive := fun _ w => (Ret tt, w);
  _close_connection := fun _ w => (close_result w, w)
|}.

Definition with_pool {W} (s : st W) (p : ConnectionPool) : st W :=
  mk_st p (app s) (timers s) (history s).

(** A pool of [sz] slots holding the idle handles [q], permits as given. *)
Definition pool_of (cl : bool) (sz : nat) (q : list Handle) (permits : nat)
  (classes : list exc_class) : ConnectionPool :=
  mk_pool cl sz q (mk_sem permits sz) None classes.

(** * Properties *)

Section Blocks.

Context {W : Type} {hooks : Hooks W}.

Lemma get_acquire_eq (s : st W) :
  get_acquire s =
  match counter (lock (pool s)) with
  | O => (Blocked, s)
  | S k =>
      let l := mk_sem k (initial_value (lock (pool s))) in
      match conn (pool s) with
      | c :: q =>
          (Ret c, with_pool s (with_conn (with_lock (pool s) l) q))
      | [] =>
          (Raise (mk_exn UnboundLocalError
                    "local variable 'c' referenced before assignment"),
           with_pool s (with_lock (pool s) l))
      end
  end.
Proof.
  destruct s as [[cl sz q [k i] ka ex] w ts h].
  unfold get_acquire, bind, get_pool, lock_acquire, sem_acquire, set_pool,
    raise, ret, with_pool; simpl.
  destruct k; [reflexivity|]. simpl.
  destruct q; reflexivity.
Qed.

Lemma get_check_eq (s : st W) :
  get_check s =
  if closed (pool s) then (Raise (instantiate ClosedPoolError []), s)
  else (Ret tt, s).
Proof.
  unfold get_check, bind, get_pool, raise, ret.
  destruct (closed (pool s)); reflexivity.
Qed.

Lemma get_enter_eq (s : st W) :
  get_enter s =
  if closed (pool s) then (Raise (instantiate ClosedPoolError []), s)
  else get_acquire s.
Proof.
  unfold get_enter, bind. rewrite get_check_eq.
  destruct (closed (pool s)); [reflexivity|].
  destruct (get_acquire s) as [[| | |] s1]; reflexivity.
Qed.

Lemma add_one_finish_eq (c : Handle) (s : st W) :
  _add_one_finish c s =
  let p := with_conn (pool s) (conn (pool s) ++ [c]) in
  if initial_value (lock (pool s)) <=? counter (lock (pool s))
  then (Raise (mk_exn ValueError "Semaphore released too many times"),
        with_pool s p)
  else
    (Ret tt,
     with_pool s
       (with_lock p (mk_sem (S (counter (lock (pool s))))
                       (initial_value (lock (pool s)))))).
Proof.
  destruct s as [[cl sz q [k i] ka ex] w ts h].
  unfold _add_one_finish, bind, conn_append, lock_release, sem_release,
    set_pool, with_pool; simpl.
  destruct (i <=? k); reflexivity.
Qed.

(** Leaving the block normally, or on an exception outside the pool's
    classes: the same two statements as at the end of [_add_one]. *)
Lemma get_exit_ret_eq (c : Handle) (s : st W) :
  get_exit c (Ret tt) s = _add_one_finish c s.
Proof.
  unfold get_exit, _add_one_finish, bind.
  destruct (conn_append c s) as [[| | |] s1]; try reflexivity.
  destruct (lock_release s1) as [[[]| | |] s2]; reflexivity.
Qed.

Lemma get_exit_other_eq {A} (c : Handle) (e : exn) (s : st W) :
  matches (exc_classes (pool s)) e = false ->
  get_exit (A := A) c (Raise e) s =
  match _add_one_finish c s with
  | (Ret _, s') => (Raise e, s')
  | (Raise e', s') => (Raise e', s')
  | (Blocked, s') => (Blocked, s')
  | (OutOfFuel, s') => (OutOfFuel, s')
  end.
Proof.
  intros Hm.
  unfold get_exit, _add_one_finish, bind, get_pool. rewrite Hm.
  unfold conn_append, set_pool.
  destruct (lock_release _) as [[[]| | |] s2]; reflexivity.
Qed.

Lemma get_exit_failure_eq {A} (c : Handle) (e : exn) (s : st W) :
  matches (exc_classes (pool s)) e = true ->
  get_exit (A := A) c (Raise e) s =
  let s1 := mk_st (pool s) (snd (_close_connection c (app s))) (timers s)
              (history s ++ [EvCloseConnection c]) in
  match fst (_close_connection c (app s)) with
  | Ret _ =>
      (Raise e, mk_st (pool s1) (app s1) (timers s1 ++ [(1%Q, AddOne)]) (history s1))
  | Raise e' => (Raise e', s1)
  | Blocked => (Blocked, s1)
  | OutOfFuel => (OutOfFuel, s1)
  end.
Proof.
  intros Hm.
  unfold get_exit, bind, get_pool, close_connection, call_hook, spawn_later,
    raise. rewrite Hm.
  destruct (_close_connection c (app s)) as [[[]| | |] w]; reflexivity.
Qed.

End Blocks.

(** ** Construction *)

Section Construction.

Context {W : Type} {hooks : Hooks W}.

Fixpoint spawn_times (i n : nat) : list (Q * task) :=
  match n with
  | O => []
  | S n' => ((SPAWN_FREQUENCY * inject_Z (Z.of_nat i))%Q, AddOne)
              :: spawn_times (S i) n'
  end.

Lemma acquire_all_eq (n : nat) :
  forall (s : st W) (k : nat),
    counter (lock (pool s)) = n + k ->
    acquire_all n s =
    (Ret tt,
     with_pool s (with_lock (pool s) (mk_sem k (initial_value (lock (pool s)))))).
Proof.
  induction n as [|n IH]; intros s k Hk.
  - destruct s as [[cl sz q [cnt i] ka ex] w ts h]. simpl in *. subst cnt.
    reflexivity.
  - simpl. unfold bind, lock_acquire, sem_acquire. rewrite Hk. simpl.
    rewrite (IH _ k) by reflexivity. reflexivity.
Qed.

Lemma spawn_all_eq (n : nat) :
  forall (i : nat) (s : st W),
    spawn_all i n s = (Ret tt, with_timers s (timers s ++ spawn_times i n)).
Proof.
  induction n as [|n IH]; intros i s.
  - simpl. unfold ret, with_timers. rewrite app_nil_r. destruct s; reflexivity.
  - simpl. unfold bind, spawn_later. rewrite IH. unfold with_timers. simpl.
    rewrite <- app_assoc. reflexivity.
Qed.

Lemma spawn_times_scheduled (n i : nat) :
  List.length (filter is_add_one (spawn_times i n)) = n.
Proof.
  revert i. induction n as [|n IH]; intros i; simpl; [reflexivity|].
  now rewrite IH.
Qed.

(** [__init__] always completes: no permit is missing while it takes the
    [sz] it has just created. *)
Lemma init_eq (sz : nat) (classes : list exc_class) (ka : option Q) (w : W) :
  ConnectionPool_init sz classes ka w =
  (Ret tt,
   mk_st (mk_pool false sz [] (mk_sem 0 sz) ka classes) w
     (spawn_times 0 sz ++
      if truthy_keepalive ka then [(0%Q, KeepalivePeriodic)] else [])
     []).
Proof.
  unfold ConnectionPool_init, init_body, bind. simpl.
  rewrite (acquire_all_eq sz _ 0) by (simpl; lia).
  rewrite spawn_all_eq. simpl.
  destruct (truthy_keepalive ka); unfold spawn_later, ret, with_timers; simpl.
  - reflexivity.
  - now rewrite app_nil_r.
Qed.

End Construction.

(** ** The capacity invariant *)

Section Invariant.

Context {W : Type} {hooks : Hooks W}.

(** Permits and idle handles go together, and idle, held and in-flight
    connections fit in the [C] slots. *)
Definition inv (C : nat) (y : sys W) : Prop :=
  let p := pool (cur y) in
  size p = C /\
  initial_value (lock p) = C /\
  counter (lock p) = List.length (conn p) /\
  List.length (conn p) + List.length (held y) + in_flight y <= C.

Lemma filter_length_app {X} (g : X -> bool) (l1 l2 : list X) :
  List.length (filter g (l1 ++ l2)) =
  List.length (filter g l1) + List.length (filter g l2).
Proof. now rewrite filter_app, length_app. Qed.

Lemma inv_init (C : nat) classes ka (w : W) s0 :
  ConnectionPool_init C classes ka w = (Ret tt, s0) ->
  inv C (mk_sys s0 [] 0).
Proof.
  rewrite init_eq. intros H; inversion H; subst; clear H.
  unfold inv, in_flight, scheduled; simpl.
  rewrite filter_length_app, spawn_times_scheduled.
  destruct (truthy_keepalive ka); simpl; repeat split; lia.
Qed.

Lemma new_connection_pool (s s1 : st W) r :
  new_connection s = (r, s1) -> pool s1 = pool s /\ timers s1 = timers s.
Proof.
  unfold new_connection, call_hook.
  destruct (_new_connection (app s)) as [r' w]. intros H; inversion H; subst.
  split; reflexivity.
Qed.

Lemma inv_step (C : nat) (y y' : sys W) (l : label) :
  inv C y -> step y l y' -> inv C y'.
Proof.
  unfold inv, in_flight, scheduled.
  intros (Hsz & Hiv & Hcnt & Hcap) Hstep.
  destruct Hstep as
    [y d ts1 ts2 Hts | y d ts1 ts2 Hts | y k stime s1 s2 Hk Hnew Hsl
    | y k e s1 Hk Hnew | y k c s1 r s2 Hk Hnew Hfin
    | y e s1 Hchk | y c s1 Hent | y e s1 Hent
    | y c h1 h2 r r' s1 Hheld Hr Hex | y w | y]; simpl in *.
  - rewrite Hts, filter_length_app in Hcap. simpl in Hcap.
    rewrite filter_length_app. repeat split; try assumption. lia.
  - rewrite Hts, filter_length_app in Hcap. simpl in Hcap.
    rewrite filter_length_app. repeat split; try assumption; lia.
  - apply new_connection_pool in Hnew. destruct Hnew as [Hp Ht].
    unfold sleep, log_event in Hsl. inversion Hsl; subst; simpl.
    rewrite Hp, Ht. repeat split; assumption.
  - apply new_connection_pool in Hnew. destruct Hnew as [Hp Ht].
    rewrite Hp, Ht. repeat split; try assumption. lia.
  - apply new_connection_pool in Hnew. destruct Hnew as [Hp Ht].
    rewrite add_one_finish_eq in Hfin. rewrite Hp in Hfin.
    destruct (initial_value (lock (pool (cur y))) <=? counter (lock (pool (cur y))))
      eqn:Hle.
    + apply Nat.leb_le in Hle. lia.
    + inversion Hfin; subst; simpl. rewrite Ht, length_app. simpl.
      repeat split; try assumption; lia.
  - rewrite get_check_eq in Hchk.
    destruct (closed (pool (cur y))); inversion Hchk; subst.
    repeat split; assumption.
  - rewrite get_acquire_eq in Hent.
    destruct (counter (lock (pool (cur y)))) as [|k] eqn:Hc; [discriminate|].
    destruct (conn (pool (cur y))) as [|c' q] eqn:Hq; [discriminate|].
    inversion Hent; subst; simpl in *. repeat split; try assumption; lia.
  - rewrite get_acquire_eq in Hent.
    destruct (counter (lock (pool (cur y)))) as [|k] eqn:Hc; [discriminate|].
    destruct (conn (pool (cur y))) as [|c' q] eqn:Hq; simpl in *;
      [discriminate | discriminate].
  - rewrite Hheld, length_app in Hcap. simpl in Hcap. rewrite length_app.
    destruct Hr as [-> | [e ->]].
    + rewrite get_exit_ret_eq, add_one_finish_eq in Hex.
      destruct (initial_value (lock (pool (cur y))) <=? counter (lock (pool (cur y))))
        eqn:Hle.
      * apply Nat.leb_le in Hle. lia.
      * inversion Hex; subst; simpl. rewrite length_app. simpl.
        repeat split; try assumption; lia.
    + destruct (matches (exc_classes (pool (cur y))) e) eqn:Hm.
      * rewrite (get_exit_failure_eq _ _ _ Hm) in Hex. simpl in Hex.
        destruct (fst (_close_connection c (app (cur y)))) as [[]| | |];
          inversion Hex; subst; simpl;
          try rewrite filter_length_app; simpl;
          repeat split; try assumption; lia.
      * rewrite (get_exit_other_eq _ _ _ Hm), add_one_finish_eq in Hex.
        destruct (initial_value (lock (pool (cur y))) <=? counter (lock (pool (cur y))))
          eqn:Hle.
        -- apply Nat.leb_le in Hle. lia.
        -- inversion Hex; subst; simpl. rewrite length_app. simpl.
           repeat split; try assumption; lia.
  - repeat split; assumption.
  - repeat split; assumption.
Qed.

Lemma inv_reachable (C : nat) (y : sys W) : reachable C y -> inv C y.
Proof.
  induction 1 as [classes ka w s0 Hinit | y l y' _ IH Hstep].
  - eapply inv_init; eassumption.
  - eapply inv_step; eassumption.
Qed.

End Invariant.

(** ** A pool of one slot, run on the scripted application *)

Definition demo_app : script := mk_script [Ret (Some 7)] (Ret tt).
Definition demo_app_done : script := mk_script [] (Ret tt).

(** After [__init__]: one [_add_one] scheduled. *)
Definition demo_new : sys script :=
  mk_sys (mk_st (pool_of false 1 [] 0 [socket_error]) demo_app
            [((1 # 10) * inject_Z 0, AddOne)%Q] []) [] 0.

(** [_add_one] has started. *)
Definition demo_adding : sys script :=
  mk_sys (mk_st (pool_of false 1 [] 0 [socket_error]) demo_app [] []) [] 1.

(** Handle 7 is idle in the queue. *)
Definition demo_idle : sys script :=
  mk_sys (mk_st (pool_of false 1 [7] 1 [socket_error]) demo_app_done []
            [EvNewConnection]) [] 0.

(** Handle 7 is held by a [with] block. *)
Definition demo_held : sys script :=
  mk_sys (mk_st (pool_of false 1 [] 0 [socket_error]) demo_app_done []
            [EvNewConnection]) [7] 0.

Lemma demo_new_reachable : reachable 1 demo_new.
Proof.
  apply (reachable_init 1 [socket_error] None demo_app). reflexivity.
Qed.

Lemma demo_adding_step : step demo_new (LStart AddOne) demo_adding.
Proof.
  exact (step_start_add demo_new ((1 # 10) * inject_Z 0)%Q [] [] eq_refl).
Qed.

Lemma demo_idle_step : step demo_adding (LAddFinish 7 (Ret tt)) demo_idle.
Proof.
  exact (step_add_finish demo_adding 0 7
           (mk_st (pool_of false 1 [] 0 [socket_error]) demo_app_done []
              [EvNewConnection])
           (Ret tt) (cur demo_idle) eq_refl eq_refl eq_refl).
Qed.

Lemma demo_held_step : step demo_idle (LEnter 7) demo_held.
Proof.
  exact (step_enter demo_idle 7 (cur demo_held) eq_refl).
Qed.

Lemma demo_idle_reachable : reachable 1 demo_idle.
Proof.
  eapply reachable_step; [|exact demo_idle_step].
  eapply reachable_step; [|exact demo_adding_step].
  exact demo_new_reachable.
Qed.

Lemma demo_held_reachable : reachable 1 demo_held.
Proof.
  eapply reachable_step; [exact demo_idle_reachable | exact demo_held_step].
Qed.

(** ** Capacity *)

Section Capacity.

Context {W : Type} {hooks : Hooks W}.

(** C1: in every state a pool of capacity [C] can reach, the idle handles,
    the handles checked out and the connections being created are together
    at most [C]; so at most [C] handles are checked out at once. *)
Theorem capacity_never_exceeded (C : nat) (y : sys W) :
  reachable C y ->
  List.length (conn (pool (cur y))) + List.length (held y) + in_flight y <= C
  /\ List.length (held y) <= C.
Proof.
  intros Hr. apply inv_reachable in Hr.
  destruct Hr as (_ & _ & _ & Hcap). split; [exact Hcap | lia].
Qed.

(** C10: in every reachable state the semaphore has no more permits than
    the queue has handles; so when [get] is given a permit, the queue is not
    empty and [popleft] returns its front handle. *)
Theorem permits_bounded_by_queue (C : nat) (y : sys W) :
  reachable C y ->
  counter (lock (pool (cur y))) <= List.length (conn (pool (cur y)))
  /\ (forall l, sem_acquire (lock (pool (cur y))) = Some l ->
      exists c q,
        conn (pool (cur y)) = c :: q /\
        get_acquire (cur y) =
        (Ret c, with_pool (cur y) (with_conn (with_lock (pool (cur y)) l) q))).
Proof.
  intros Hr. apply inv_reachable in Hr.
  destruct Hr as (_ & _ & Hcnt & _). split; [lia|].
  intros l Hl. unfold sem_acquire in Hl. rewrite get_acquire_eq.
  destruct (counter (lock (pool (cur y)))) as [|k]; [discriminate|].
  inversion Hl; subst; clear Hl.
  destruct (conn (pool (cur y))) as [|c q]; [discriminate|].
  exists c, q. split; reflexivity.
Qed.

(** The slots that are neither lost nor being refilled: free permits and
    handles checked out. *)
Definition slots_in_use_or_free (y : sys W) : nat :=
  counter (lock (pool (cur y))) + List.length (held y).

(** The handles the pool has: idle or checked out. *)
Definition handles (y : sys W) : nat :=
  List.length (conn (pool (cur y))) + List.length (held y).

Definition is_add_finish (l : label) : Prop :=
  exists c r, l = LAddFinish c r.

(** C4: leaving [get] on a connection failure releases no permit and
    enqueues nothing; in any step, the slots that are free or in use grow
    only when [_add_one] finishes, and so does the number of handles the pool
    has (the first ones included); and [_add_one] appends before it
    releases. *)
Theorem slot_released_only_by_add_one (y y' : sys W) (l : label) :
  step y l y' ->
  (forall c e r', l = LExit c (Raise e) r' ->
     matches (exc_classes (pool (cur y))) e = true ->
     pool (cur y') = pool (cur y)
     /\ slots_in_use_or_free y' < slots_in_use_or_free y)
  /\ (slots_in_use_or_free y < slots_in_use_or_free y' -> is_add_finish l)
  /\ (handles y < handles y' -> is_add_finish l)
  /\ (forall c r, l = LAddFinish c r ->
      exists s1 s2,
        conn_append c s1 = (Ret tt, s2)
        /\ conn (pool s2) = conn (pool s1) ++ [c]
        /\ lock (pool s2) = lock (pool s1)
        /\ lock_release s2 = (r, cur y')).
Proof.
  unfold slots_in_use_or_free, handles, is_add_finish.
  intros Hstep.
  destruct Hstep as
    [y d ts1 ts2 Hts | y d ts1 ts2 Hts | y k stime s1 s2 Hk Hnew Hsl
    | y k e s1 Hk Hnew | y k c s1 r s2 Hk Hnew Hfin
    | y e s1 Hchk | y c s1 Hent | y e s1 Hent
    | y c h1 h2 r r' s1 Hheld Hr Hex | y w | y]; simpl.
  1-2: repeat split; try discriminate; try lia; intros; discriminate.
  - apply new_connection_pool in Hnew. destruct Hnew as [Hp _].
    unfold sleep, log_event in Hsl. inversion Hsl; subst; simpl. rewrite Hp.
    repeat split; try discriminate; try lia; intros; discriminate.
  - apply new_connection_pool in Hnew. destruct Hnew as [Hp _]. rewrite Hp.
    repeat split; try discriminate; try lia; intros; discriminate.
  - repeat split; try discriminate; eauto.
    intros c0 r0 Heq. inversion Heq; subst.
    exists s1, (with_pool s1 (with_conn (pool s1) (conn (pool s1) ++ [c0]))).
    repeat split. exact Hfin.
  - rewrite get_check_eq in Hchk.
    destruct (closed (pool (cur y))); inversion Hchk; subst.
    repeat split; try discriminate; try lia; intros; discriminate.
  - rewrite get_acquire_eq in Hent.
    destruct (counter (lock (pool (cur y)))) as [|k] eqn:Hc; [discriminate|].
    destruct (conn (pool (cur y))) as [|c' q] eqn:Hq; [discriminate|].
    inversion Hent; subst; simpl.
    repeat split; try discriminate; try lia; intros; discriminate.
  - rewrite get_acquire_eq in Hent.
    destruct (counter (lock (pool (cur y)))) as [|k] eqn:Hc; [discriminate|].
    destruct (conn (pool (cur y))) as [|c' q] eqn:Hq; [|discriminate].
    inversion Hent; subst; simpl. rewrite Hq. simpl.
    repeat split; try discriminate; try lia; intros; discriminate.
  - rewrite Hheld, !length_app. simpl.
    destruct Hr as [-> | [e ->]].
    + rewrite get_exit_ret_eq, add_one_finish_eq in Hex.
      destruct (_ <=? _); inversion Hex; subst; simpl; rewrite ?length_app; simpl;
        repeat split; try discriminate; try lia; intros; discriminate.
    + destruct (matches (exc_classes (pool (cur y))) e) eqn:Hm.
      * rewrite (get_exit_failure_eq _ _ _ Hm) in Hex. simpl in Hex.
        assert (Hp : pool s1 = pool (cur y)).
        { destruct (fst (_close_connection c (app (cur y)))) as [[]| | |];
            inversion Hex; reflexivity. }
        rewrite Hp.
        repeat split; try discriminate; try lia; intros; discriminate.
      * rewrite (get_exit_other_eq _ _ _ Hm), add_one_finish_eq in Hex.
        split.
        { intros c0 e0 r0 Heq Hm0. inversion Heq; subst. congruence. }
        destruct (_ <=? _); inversion Hex; subst; simpl; rewrite ?length_app; simpl;
          repeat split; try discriminate; try lia; intros; discriminate.
  - repeat split; try discriminate; try lia; intros; discriminate.
  - repeat split; try discriminate; try lia; intros; discriminate.
Qed.

End Capacity.

(** ** Leaving [get] on an exception *)

Section Leaving.

Context {W : Type} {hooks : Hooks W}.

(** When [_close_connection] returns, a connection failure is handled as
    the docstring of [get] says: the handle is dropped, [_add_one] is
    scheduled one second later, no permit is released and the exception is
    raised again. *)
Lemma connection_failure_when_close_returns {A} (c : Handle) (e : exn)
  (w' : W) (s : st W) :
  matches (exc_classes (pool s)) e = true ->
  _close_connection c (app s) = (Ret tt, w') ->
  get_exit (A := A) c (Raise e) s =
  (Raise e,
   mk_st (pool s) w' (timers s ++ [(1%Q, AddOne)])
     (history s ++ [EvCloseConnection c])).
Proof.
  intros Hm Hc. rewrite (get_exit_failure_eq _ _ _ Hm), Hc. reflexivity.
Qed.

(** C3 (what the code does when the close hook raises): the hook's
    exception escapes from [get] in place of the original one, no [_add_one]
    is scheduled and no permit is released. *)
Theorem close_hook_error_escapes {A} (c : Handle) (e e' : exn) (w' : W)
  (s : st W) :
  matches (exc_classes (pool s)) e = true ->
  _close_connection c (app s) = (Raise e', w') ->
  get_exit (A := A) c (Raise e) s =
  (Raise e',
   mk_st (pool s) w' (timers s) (history s ++ [EvCloseConnection c])).
Proof.
  intros Hm Hc. rewrite (get_exit_failure_eq _ _ _ Hm), Hc. reflexivity.
Qed.

(** C5: when the body of a [with] block raises an exception outside the
    pool's classes, [get] appends the same handle to the queue, releases the
    permit and raises the same exception; the next acquisition finds a permit
    and a handle, which is that handle when the queue was empty. *)
Theorem unrelated_error_returns_handle {A} (C : nat) (y : sys W)
  (c : Handle) (h1 h2 : list Handle) (e : exn) :
  reachable C y ->
  held y = h1 ++ c :: h2 ->
  matches (exc_classes (pool (cur y))) e = false ->
  exists s',
    get_exit (A := A) c (Raise e) (cur y) = (Raise e, s')
    /\ conn (pool s') = conn (pool (cur y)) ++ [c]
    /\ counter (lock (pool s')) = S (counter (lock (pool (cur y))))
    /\ timers s' = timers (cur y)
    /\ history s' = history (cur y)
    /\ exists s'',
         get_acquire s' = (Ret (hd c (conn (pool (cur y)))), s'')
         /\ conn (pool s'') = tl (conn (pool (cur y)) ++ [c]).
Proof.
  intros Hr Hheld Hm. apply inv_reachable in Hr.
  destruct Hr as (_ & Hiv & Hcnt & Hcap).
  rewrite Hheld, length_app in Hcap. simpl in Hcap.
  rewrite (get_exit_other_eq _ _ _ Hm), add_one_finish_eq.
  destruct (initial_value (lock (pool (cur y))) <=? counter (lock (pool (cur y))))
    eqn:Hle.
  { apply Nat.leb_le in Hle. lia. }
  eexists. split; [reflexivity|]. simpl.
  repeat split.
  rewrite get_acquire_eq. simpl.
  destruct (conn (pool (cur y))) as [|c0 q]; simpl; eexists; split; reflexivity.
Qed.

(** [n] acquisition attempts in a row: their results and the state left. *)
Fixpoint get_attempts (n : nat) (s : st W) : list (res Handle) * st W :=
  match n with
  | O => ([], s)
  | S n' =>
      let (r, s1) := get_enter s in
      let (rs, s2) := get_attempts n' s1 in
      (r :: rs, s2)
  end.

(** C2 (what the code does on a closed pool): [ClosedPoolError()] is called
    without the two arguments [PoolError.__init__] requires, so entering
    [get] raises [TypeError], which is no [ClosedPoolError]; the state does
    not change, so this holds for every later attempt too. *)
Theorem get_on_closed_pool {A} (body : Handle -> M W A) (s : st W) :
  closed (pool s) = true ->
  let e := mk_exn TypeError "__init__() takes exactly 3 arguments" in
  get_enter s = (Raise e, s)
  /\ with_get body s = (Raise e, s)
  /\ (forall n, get_attempts n s = (repeat (Raise e) n, s))
  /\ issubclass (exn_class e) ClosedPoolError = false.
Proof.
  intros Hc e. assert (He : get_enter s = (Raise e, s)).
  { rewrite get_enter_eq, Hc. reflexivity. }
  split; [exact He|]. split; [|split; [|reflexivity]].
  - unfold with_get, bind. rewrite He. reflexivity.
  - induction n as [|n IH]; simpl; [reflexivity|].
    rewrite He, IH. reflexivity.
Qed.

End Leaving.

(** ** [close] *)

Section Close.

Context {W : Type} {hooks : Hooks W}.

(** What no block of [get] changes: the flag, the capacity and the classes;
    and the history only grows. *)
Definition extends (s s' : st W) : Prop :=
  closed (pool s') = closed (pool s)
  /\ size (pool s') = size (pool s)
  /\ exc_classes (pool s') = exc_classes (pool s)
  /\ exists t, history s' = history s ++ t.

Lemma extends_refl (s : st W) : extends s s.
Proof. repeat split. exists []. now rewrite app_nil_r. Qed.

Lemma extends_trans (s1 s2 s3 : st W) :
  extends s1 s2 -> extends s2 s3 -> extends s1 s3.
Proof.
  intros (Ha & Hb & Hc & t & Ht) (Ha' & Hb' & Hc' & t' & Ht').
  repeat split; try congruence.
  exists (t ++ t'). rewrite Ht', Ht. now rewrite app_assoc.
Qed.

Lemma get_acquire_extends (s s' : st W) (r : res Handle) :
  get_acquire s = (r, s') -> extends s s' /\ history s' = history s.
Proof.
  rewrite get_acquire_eq.
  destruct (counter (lock (pool s))); [|destruct (conn (pool s))];
    simpl; intros H; inversion H; subst; simpl;
    (split; [apply extends_refl || (repeat split; exists []; simpl; now rewrite app_nil_r) | reflexivity]).
Qed.

Lemma get_enter_extends (s s' : st W) (r : res Handle) :
  get_enter s = (r, s') -> extends s s' /\ history s' = history s.
Proof.
  rewrite get_enter_eq. destruct (closed (pool s)).
  - intros H; inversion H; subst. split; [apply extends_refl | reflexivity].
  - apply get_acquire_extends.
Qed.

Lemma add_one_finish_extends (c : Handle) (s s' : st W) (r : res unit) :
  _add_one_finish c s = (r, s') -> extends s s' /\ history s' = history s.
Proof.
  rewrite add_one_finish_eq. simpl.
  destruct (_ <=? _); intros H; inversion H; subst; simpl;
    (split; [repeat split; exists []; simpl; now rewrite app_nil_r | reflexivity]).
Qed.

Lemma close_connection_extends (c : Handle) (s s' : st W) (r : res unit) :
  close_connection c s = (r, s') ->
  extends s s' /\ history s' = history s ++ [EvCloseConnection c].
Proof.
  unfold close_connection, call_hook.
  destruct (_close_connection c (app s)) as [r0 w]. intros H; inversion H; subst.
  split; [|reflexivity]. repeat split. eexists; reflexivity.
Qed.

Lemma get_exit_extends (c : Handle) (rb r : res unit) (s s' : st W) :
  get_exit c rb s = (r, s') -> extends s s'.
Proof.
  destruct rb as [[]|e| |].
  - rewrite get_exit_ret_eq. intros H. now apply add_one_finish_extends in H.
  - destruct (matches (exc_classes (pool s)) e) eqn:Hm.
    + rewrite (get_exit_failure_eq _ _ _ Hm). simpl.
      destruct (fst (_close_connection c (app s))) as [[]| | |];
        intros H; inversion H; subst; repeat split; eexists; reflexivity.
    + rewrite (get_exit_other_eq _ _ _ Hm).
      destruct (_add_one_finish c s) as [rf sf] eqn:Hf.
      apply add_one_finish_extends in Hf. destruct Hf as [Hf _].
      destruct rf; intros H; inversion H; subst; exact Hf.
  - simpl. intros H; inversion H; subst. apply extends_refl.
  - simpl. intros H; inversion H; subst. apply extends_refl.
Qed.

(** [with self.get() as c: self._close_connection(c)]: the hook is called
    on the handle acquired. *)
Lemma with_get_close_spec (s s' : st W) (r : res unit) :
  with_get close_connection s = (r, s') ->
  extends s s'
  /\ forall c s1, get_enter s = (Ret c, s1) ->
       exists t, history s' = history s ++ EvCloseConnection c :: t.
Proof.
  unfold with_get, bind.
  destruct (get_enter s) as [re s1] eqn:He.
  pose proof (get_enter_extends _ _ _ He) as [Hx1 Hh1].
  destruct re as [c|e| |]; try (intros H; inversion H; subst;
    split; [exact Hx1 | intros; discriminate]).
  destruct (close_connection c s1) as [rb s2] eqn:Hb.
  pose proof (close_connection_extends _ _ _ _ Hb) as [Hx2 Hh2].
  intros Hex. pose proof (get_exit_extends _ _ _ _ _ Hex) as Hx3.
  split.
  - eapply extends_trans; [exact Hx1|]. eapply extends_trans; eassumption.
  - intros c0 s0 Heq. inversion Heq; subst.
    destruct Hx3 as (_ & _ & _ & t & Ht). exists t.
    rewrite Ht, Hh2, Hh1, <- app_assoc. reflexivity.
Qed.

(** One pass of the loop body of [close]. *)
Lemma close_one_spec (s s' : st W) (r : res unit) :
  close_one s = (r, s') ->
  extends s s'
  /\ forall c s1, get_enter s = (Ret c, s1) ->
       exists t, history s' = history s ++ EvCloseConnection c :: t.
Proof.
  unfold close_one, try_except, bind, get_pool.
  destruct (with_get close_connection s) as [rw sw] eqn:Hw.
  apply with_get_close_spec in Hw.
  destruct rw as [[]|e| |]; try (intros H; inversion H; subst; exact Hw).
  destruct (matches _ _); unfold ret; intros H; inversion H; subst; exact Hw.
Qed.

Lemma close_loop_extends (n : nat) :
  forall (s s' : st W) (r : res unit),
    close_loop n s = (r, s') -> extends s s'.
Proof.
  induction n as [|n IH]; intros s s' r; simpl.
  - unfold ret. intros H; inversion H; subst. apply extends_refl.
  - unfold bind. destruct (close_one s) as [r1 s1] eqn:H1.
    apply close_one_spec in H1. destruct H1 as [H1 _].
    destruct r1 as [[]| | |]; try (intros H; inversion H; subst; exact H1).
    intros H. apply IH in H. eapply extends_trans; eassumption.
Qed.

(** The handles the [n] passes of the loop acquire, in order. *)
Fixpoint acquired_by_close (n : nat) (s : st W) : list Handle :=
  match n with
  | O => []
  | S n' =>
      match get_enter s with (Ret c, _) => [c] | _ => [] end ++
      match close_one s with
      | (Ret _, s') => acquired_by_close n' s'
      | _ => []
      end
  end.

(** Every handle the loop acquires has the close hook called on it. *)
Lemma close_loop_hooks (n : nat) :
  forall (s s' : st W) (r : res unit),
    close_loop n s = (r, s') ->
    exists t, history s' = history s ++ t
      /\ forall c, In c (acquired_by_close n s) -> In (EvCloseConnection c) t.
Proof.
  induction n as [|n IH]; intros s s' r; simpl.
  - unfold ret. intros H; inversion H; subst. exists [].
    rewrite app_nil_r. split; [reflexivity | intros c []].
  - unfold bind. destruct (close_one s) as [r1 s1] eqn:H1.
    apply close_one_spec in H1. destruct H1 as [(_ & _ & _ & t1 & Ht1) Hacq].
    assert (Hfirst : forall c, In c match get_enter s with
                                    | (Ret c0, _) => [c0] | _ => [] end ->
                               In (EvCloseConnection c) t1).
    { destruct (get_enter s) as [[c0|e| |] s0];
        try (intros c Hc; contradiction).
      intros c [<-|[]]. destruct (Hacq c0 s0 eq_refl) as [t Ht].
      rewrite Ht in Ht1. apply app_inv_head in Ht1. subst t1. now left. }
    destruct r1 as [[]| | |];
      try (intros H; inversion H; subst; exists t1; split; [exact Ht1|];
           intros c Hc; rewrite app_nil_r in Hc; auto).
    intros H. destruct (IH _ _ _ H) as (t2 & Ht2 & Hin).
    exists (t1 ++ t2). split; [rewrite Ht2, Ht1; now rewrite app_assoc|].
    intros c Hc. apply in_app_iff. apply in_app_iff in Hc.
    destruct Hc as [Hc|Hc]; [left; auto | right; auto].
Qed.

(** One pass when a handle is idle and the hook returns: the front handle
    is closed and goes to the back of the queue. *)
Lemma close_one_idle (s : st W) (c : Handle) (q : list Handle) (w' : W) :
  closed (pool s) = false ->
  conn (pool s) = c :: q ->
  counter (lock (pool s)) = S (List.length q) ->
  S (List.length q) <= initial_value (lock (pool s)) ->
  _close_connection c (app s) = (Ret tt, w') ->
  close_one s =
  (Ret tt,
   mk_st (with_conn (pool s) (q ++ [c])) w' (timers s)
     (history s ++ [EvCloseConnection c])).
Proof.
  intros Hcl Hq Hk Hi Hh.
  unfold close_one, try_except, with_get, bind, get_pool.
  rewrite get_enter_eq, Hcl, get_acquire_eq, Hk, Hq. simpl.
  unfold close_connection at 1. unfold call_hook. simpl. rewrite Hh.
  rewrite get_exit_ret_eq, add_one_finish_eq. simpl.
  assert (Hle : (initial_value (lock (pool s)) <=? List.length q) = false)
    by (apply Nat.leb_gt; lia).
  rewrite Hle. unfold with_pool, with_lock, with_conn. simpl.
  destruct s as [[cl sz cn [k i] ka ex] w ts h]. simpl in *. subst. reflexivity.
Qed.

(** The application's state after the close hook has returned on each handle
    of [q] in turn. *)
Fixpoint app_after_closes (q : list Handle) (w : W) : option W :=
  match q with
  | [] => Some w
  | c :: q' =>
      match _close_connection c w with
      | (Ret _, w') => app_after_closes q' w'
      | _ => None
      end
  end.

Lemma close_loop_rotates (q1 : list Handle) :
  forall (s : st W) (q2 : list Handle) (w' : W),
    closed (pool s) = false ->
    conn (pool s) = q1 ++ q2 ->
    counter (lock (pool s)) = List.length (q1 ++ q2) ->
    List.length (q1 ++ q2) <= initial_value (lock (pool s)) ->
    app_after_closes q1 (app s) = Some w' ->
    close_loop (List.length q1) s =
    (Ret tt,
     mk_st (with_conn (pool s) (q2 ++ q1)) w' (timers s)
       (history s ++ map EvCloseConnection q1)).
Proof.
  induction q1 as [|c q1 IH]; intros s q2 w' Hcl Hq Hk Hi Hw; simpl in *.
  - inversion Hw; subst w'. unfold ret. rewrite !app_nil_r, <- Hq.
    destruct s as [[cl sz cn lk ka ex] w ts h]. reflexivity.
  - destruct (_close_connection c (app s)) as [[[]| | |] w1] eqn:Hh;
      try discriminate.
    unfold bind.
    rewrite (close_one_idle s c (q1 ++ q2) w1 Hcl Hq Hk Hi Hh).
    rewrite (IH _ (q2 ++ [c]) w'); simpl; try assumption.
    + unfold with_conn. simpl. rewrite <- !app_assoc. reflexivity.
    + now rewrite <- app_assoc.
    + rewrite Hk, !length_app. simpl. lia.
    + rewrite !length_app in *. simpl in *. lia.
Qed.

(** When every slot's handle is idle and the close hook returns on each,
    [close] returns: it has closed each handle once, in queue order, left
    them in the queue, and set the flag. *)
Lemma close_all_idle (s : st W) (w' : W) :
  closed (pool s) = false ->
  List.length (conn (pool s)) = size (pool s) ->
  counter (lock (pool s)) = size (pool s) ->
  initial_value (lock (pool s)) = size (pool s) ->
  app_after_closes (conn (pool s)) (app s) = Some w' ->
  close s =
  (Ret tt,
   mk_st (with_closed (pool s) true) w' (timers s)
     (history s ++ map EvCloseConnection (conn (pool s)))).
Proof.
  intros Hcl Hlen Hk Hi Hw. unfold close, bind, get_pool. rewrite Hcl.
  rewrite <- Hlen.
  rewrite (close_loop_rotates (conn (pool s)) s [] w');
    rewrite ?app_nil_r; try assumption; try lia; [|reflexivity].
  unfold set_pool, with_closed, with_conn. simpl.
  destruct s as [[cl sz cn lk ka ex] w ts h]. reflexivity.
Qed.

(** C9: a call of [close] on a closed pool does nothing; a call that returns
    on an open pool has run the [size] passes of the loop with the flag still
    false, calling the close hook on every handle it acquired, and has set
    the flag last; the call after it does nothing. *)
Theorem close_idempotent (s s' : st W) :
  close s = (Ret tt, s') ->
  (closed (pool s) = true -> s' = s)
  /\ (closed (pool s) = false ->
      exists s1 t,
        close_loop (size (pool s)) s = (Ret tt, s1)
        /\ closed (pool s1) = false
        /\ s' = with_pool s1 (with_closed (pool s1) true)
        /\ history s' = history s ++ t
        /\ forall c, In c (acquired_by_close (size (pool s)) s) ->
             In (EvCloseConnection c) t)
  /\ closed (pool s') = true
  /\ close s' = (Ret tt, s').
Proof.
  unfold close, bind, get_pool. intros H.
  destruct (closed (pool s)) eqn:Hcl.
  - unfold ret in H. inversion H; subst. rewrite Hcl.
    repeat split; discriminate.
  - destruct (close_loop (size (pool s)) s) as [rl s1] eqn:Hl.
    destruct rl as [[]| | |]; try discriminate.
    unfold set_pool in H. inversion H; subst; clear H.
    pose proof (close_loop_extends _ _ _ _ Hl) as (Hc1 & _).
    destruct (close_loop_hooks _ _ _ _ Hl) as (t & Ht & Hin).
    split; [discriminate|]. split.
    + intros _. exists s1, t. rewrite Hc1, Hcl. repeat split; assumption.
    + split; reflexivity.
Qed.

End Close.

(** ** [retry] *)

Section RetryProps.

Context {W A : Type}.
Variable f : M W A.
Variable a : retry_args.

(** What the wrapper does between a failed call and the test on
    [max_failures]. *)
Definition after_failure (e : exn) (failures' : Z) : list retry_event :=
  [RInvoke] ++ log_if_logger a (retry_log_level a) retry_log_message e
    ++ [RSleep (interval a); RFailures failures'].

Definition exhaustion_log (e : exn) : list retry_event :=
  log_if_logger a (max_failure_log_level a) max_failure_log_message e.

Definition always_fails : Prop :=
  forall s, exists e s', f s = (Raise e, s') /\ matches (r_exc_classes a) e = true.

Lemma deco_loop_unrelated (fuel : nat) (failures : Z) (s s' : st W) (e : exn) :
  f s = (Raise e, s') ->
  matches (r_exc_classes a) e = false ->
  deco_loop f a (S fuel) failures s = (Raise e, s', [RInvoke]).
Proof. intros Hf Hm. simpl. rewrite Hf, Hm. reflexivity. Qed.

Lemma deco_loop_again (fuel : nat) (failures : Z) (s s' : st W) (e : exn) :
  f s = (Raise e, s') ->
  matches (r_exc_classes a) e = true ->
  exhausted a (failures + 1) = false ->
  deco_loop f a (S fuel) failures s =
  let '(r, s'', t) := deco_loop f a fuel (failures + 1) s' in
  (r, s'', after_failure e (failures + 1) ++ t).
Proof. intros Hf Hm Hx. simpl. rewrite Hf, Hm, Hx. reflexivity. Qed.

Lemma deco_loop_give_up (fuel : nat) (failures : Z) (s s' : st W) (e : exn) :
  f s = (Raise e, s') ->
  matches (r_exc_classes a) e = true ->
  exhausted a (failures + 1) = true ->
  deco_loop f a (S fuel) failures s =
  (Raise e, s', after_failure e (failures + 1) ++ exhaustion_log e).
Proof. intros Hf Hm Hx. simpl. rewrite Hf, Hm, Hx. reflexivity. Qed.

Lemma invocations_app (t1 t2 : list retry_event) :
  invocations (t1 ++ t2) = invocations t1 + invocations t2.
Proof. unfold invocations. now rewrite filter_app, length_app. Qed.

Lemma logged_app (tpl : log_template) (t1 t2 : list retry_event) :
  logged tpl (t1 ++ t2) = logged tpl t1 + logged tpl t2.
Proof. unfold logged. now rewrite filter_app, length_app. Qed.

Lemma invocations_after_failure (e : exn) (n : Z) :
  invocations (after_failure e n) = 1.
Proof.
  unfold after_failure, log_if_logger. destruct (logger a); reflexivity.
Qed.

Lemma logged_max_after_failure (e : exn) (n : Z) :
  logged max_failure_log_message (after_failure e n) = 0.
Proof.
  unfold after_failure, log_if_logger. destruct (logger a); reflexivity.
Qed.

Definition one_if_logger : nat :=
  match logger a with Some _ => 1 | None => 0 end.

Lemma logged_max_exhaustion_log (e : exn) :
  logged max_failure_log_message (exhaustion_log e) = one_if_logger.
Proof.
  unfold exhaustion_log, log_if_logger, one_if_logger.
  destruct (logger a); reflexivity.
Qed.

Lemma invocations_exhaustion_log (e : exn) :
  invocations (exhaustion_log e) = 0.
Proof.
  unfold exhaustion_log, log_if_logger. destruct (logger a); reflexivity.
Qed.

(** The trace of [k] failed calls that are each followed by another call. *)
Fixpoint retries_trace (k : nat) (failures : Z) (s : st W) : list retry_event :=
  match k with
  | O => []
  | S k' =>
      match f s with
      | (Raise e, s') =>
          after_failure e (failures + 1)
            ++ retries_trace k' (failures + 1) s'
      | _ => []
      end
  end.

Lemma retry_unrelated_from (k : nat) :
  forall (fuel : nat) (failures : Z) (s sk s' : st W) (last last' : option exn)
         (e : exn),
    fail_run f (r_exc_classes a) k last s = Some (last', sk) ->
    (forall m, max_failures a = Some m -> (failures + Z.of_nat k <= m)%Z) ->
    f sk = (Raise e, s') ->
    matches (r_exc_classes a) e = false ->
    k < fuel ->
    deco_loop f a fuel failures s
    = (Raise e, s', retries_trace k failures s ++ [RInvoke])
    /\ invocations (retries_trace k failures s ++ [RInvoke]) = S k.
Proof.
  induction k as [|k IH]; intros fuel failures s sk s' last last' e Hrun Hmax Hf Hm Hfuel.
  - simpl in Hrun. inversion Hrun; subst.
    destruct fuel as [|fuel]; [lia|].
    split; [|reflexivity]. simpl retries_trace.
    now apply deco_loop_unrelated.
  - simpl in Hrun.
    destruct (f s) as [[v|e1| |] s1] eqn:Hf1; try discriminate.
    destruct (matches (r_exc_classes a) e1) eqn:Hm1; [|discriminate].
    destruct fuel as [|fuel]; [lia|].
    assert (Hx : exhausted a (failures + 1) = false).
    { unfold exhausted. destruct (max_failures a) as [m|] eqn:Hmf; [|reflexivity].
      specialize (Hmax m eq_refl). apply Z.ltb_ge. lia. }
    destruct (IH fuel (failures + 1)%Z s1 sk s' (Some e1) last' e Hrun) as [Hd Hi];
      try assumption; try lia.
    { intros m Hmf. specialize (Hmax m Hmf). lia. }
    rewrite (deco_loop_again _ _ _ _ _ Hf1 Hm1 Hx), Hd.
    cbn [retries_trace]. rewrite Hf1, <- app_assoc.
    split; [reflexivity|].
    rewrite invocations_app, invocations_after_failure, Hi. reflexivity.
Qed.

(** C7: when a call of [f] raises an exception outside the designated
    classes, after any number of retried failures, the wrapper raises that
    exception at once: the call is the last thing in its trace (no log, no
    sleep, no change of [failures] follows) and [f] is not called again. *)
Theorem retry_unrelated_error_propagates (k fuel : nat) (s sk s' : st W)
  (last : option exn) (e : exn) :
  fail_run f (r_exc_classes a) k None s = Some (last, sk) ->
  (forall m, max_failures a = Some m -> (Z.of_nat k <= m)%Z) ->
  f sk = (Raise e, s') ->
  matches (r_exc_classes a) e = false ->
  k < fuel ->
  retry f a fuel s = (Raise e, s', retries_trace k 0 s ++ [RInvoke])
  /\ invocations (retries_trace k 0 s ++ [RInvoke]) = S k.
Proof.
  intros Hrun Hmax Hf Hm Hfuel.
  unfold retry, deco.
  eapply retry_unrelated_from; eauto.
Qed.

Lemma retry_exhausts_from (j : nat) :
  forall (failures m : Z) (s : st W) (last : option exn),
    always_fails ->
    max_failures a = Some m ->
    (failures + Z.of_nat j = m)%Z ->
    exists e s' t,
      fail_run f (r_exc_classes a) (S j) last s = Some (Some e, s')
      /\ (forall fuel, j < fuel ->
          deco_loop f a fuel failures s = (Raise e, s', t))
      /\ invocations t = S j
      /\ logged max_failure_log_message t = one_if_logger.
Proof.
  induction j as [|j IH]; intros failures m s last Hall Hmf Hsum;
    destruct (Hall s) as (e & s1 & Hf & Hm).
  - exists e, s1, (after_failure e (failures + 1) ++ exhaustion_log e).
    assert (Hx : exhausted a (failures + 1) = true).
    { unfold exhausted. rewrite Hmf. apply Z.ltb_lt. lia. }
    split; [simpl; now rewrite Hf, Hm|].
    split.
    { intros [|fuel] Hfuel; [lia|]. now apply deco_loop_give_up. }
    rewrite invocations_app, logged_app, invocations_after_failure,
      invocations_exhaustion_log, logged_max_after_failure,
      logged_max_exhaustion_log. split; reflexivity.
  - assert (Hx : exhausted a (failures + 1) = false).
    { unfold exhausted. rewrite Hmf. apply Z.ltb_ge. lia. }
    destruct (IH (failures + 1)%Z m s1 (Some e) Hall Hmf) as
      (e' & s' & t & Hrun & Hd & Hi & Hl); try lia.
    exists e', s', (after_failure e (failures + 1) ++ t).
    split; [cbn [fail_run]; rewrite Hf, Hm; exact Hrun|].
    split.
    { intros [|fuel] Hfuel; [lia|].
      rewrite (deco_loop_again _ _ _ _ _ Hf Hm Hx), Hd by lia. reflexivity. }
    rewrite invocations_app, logged_app, invocations_after_failure,
      logged_max_after_failure, Hi, Hl. split; reflexivity.
Qed.

(** C6, as the code has it: with [max_failures = m >= 0] and an [f] whose
    every call raises a designated exception, the wrapper calls [f] exactly
    [m + 1] times, then raises the exception of the last call; the
    max-failure message is logged once when a logger was given, and there is
    nothing to log it with otherwise. *)
Theorem retry_exhausts (m : Z) (s : st W) :
  always_fails ->
  max_failures a = Some m ->
  (0 <= m)%Z ->
  exists e s' t,
    fail_run f (r_exc_classes a) (Z.to_nat m + 1) None s = Some (Some e, s')
    /\ (forall fuel, Z.to_nat m + 1 <= fuel ->
        retry f a fuel s = (Raise e, s', t))
    /\ Z.of_nat (invocations t) = (m + 1)%Z
    /\ logged max_failure_log_message t = one_if_logger.
Proof.
  intros Hall Hmf Hm.
  destruct (retry_exhausts_from (Z.to_nat m) 0 m s None Hall Hmf)
    as (e & s' & t & Hrun & Hd & Hi & Hl); try lia.
  exists e, s', t. rewrite Nat.add_1_r.
  split; [exact Hrun|]. split; [|split; [lia | exact Hl]].
  intros fuel Hfuel. unfold retry, deco. apply Hd. lia.
Qed.

End RetryProps.

(** ** [_add_one] *)

Section AddOne.

Context {W : Type} {hooks : Hooks W}.

(** The delay slept after the failed attempt number [k] (from 0). *)
Definition stime_at (k : nat) : Q := Nat.iter k next_stime (1 # 10)%Q.

(** [n] falsy results of [_new_connection] in a row, then a handle. *)
Fixpoint falsy_then (n : nat) (w : W) : option (Handle * W) :=
  match n with
  | O =>
      match _new_connection w with
      | (Ret (Some c), w') => Some (c, w')
      | _ => None
      end
  | S n' =>
      match _new_connection w with
      | (Ret None, w') => falsy_then n' w'
      | _ => None
      end
  end.

(** What [n] failed attempts and a successful one do, the first failed
    attempt being number [k]. *)
Fixpoint attempts (k n : nat) : list event :=
  match n with
  | O => [EvNewConnection]
  | S n' => EvNewConnection :: EvSleep (stime_at k) :: attempts (S k) n'
  end.

Lemma add_one_loop_eq (n : nat) :
  forall (k fuel : nat) (s : st W) (c : Handle) (w' : W),
    falsy_then n (app s) = Some (c, w') ->
    n < fuel ->
    _add_one_loop fuel (stime_at k) s =
    (Ret c, mk_st (pool s) w' (timers s) (history s ++ attempts k n)).
Proof.
  induction n as [|n IH]; intros k fuel s c w' Hrun Hfuel;
    (destruct fuel as [|fuel]; [lia|]); simpl in Hrun |- *;
    unfold bind, new_connection, call_hook;
    destruct (_new_connection (app s)) as [[[c0|]|e| |] w1]; try discriminate.
  - inversion Hrun; subst. reflexivity.
  - unfold sleep, log_event. simpl.
    change (next_stime (stime_at k)) with (stime_at (S k)).
    rewrite (IH (S k) fuel _ c w'); [|exact Hrun | lia].
    simpl. rewrite <- !app_assoc. reflexivity.
Qed.

Definition pow2 (j : nat) : Q := inject_Z (2 ^ Z.of_nat j).

Lemma stime_below_cap (j : nat) :
  j < 12 -> Qlt_bool ((1 # 10) * pow2 j)%Q 400%Q = true.
Proof.
  intros Hj.
  do 12 (destruct j as [|j]; [reflexivity|]). lia.
Qed.

Lemma Qlt_bool_comp (x y z : Q) : (x == y)%Q -> Qlt_bool x z = Qlt_bool y z.
Proof.
  intros H. unfold Qlt_bool. now rewrite H.
Qed.

Lemma pow2_S (j : nat) : (pow2 (S j) == pow2 j * 2)%Q.
Proof.
  unfold pow2. rewrite Nat2Z.inj_succ, Z.pow_succ_r by lia.
  rewrite Z.mul_comm, inject_Z_mult. reflexivity.
Qed.

(** The delay in closed form: a tenth of a second doubled [k] times, and no
    more than twelve times. *)
Lemma stime_at_closed_form (k : nat) :
  (stime_at k == (1 # 10) * pow2 (Nat.min k 12))%Q.
Proof.
  induction k as [|k IH]; [reflexivity|].
  change (stime_at (S k)) with (next_stime (stime_at k)).
  unfold next_stime. rewrite (Qlt_bool_comp _ _ _ IH).
  destruct (Nat.lt_ge_cases k 12) as [Hlt|Hge].
  - rewrite stime_below_cap by lia.
    rewrite IH. replace (Nat.min (S k) 12) with (S (Nat.min k 12)) by lia.
    rewrite pow2_S. ring.
  - replace (Nat.min k 12) with 12 in * by lia.
    replace (Nat.min (S k) 12) with 12 by lia.
    change (Qlt_bool ((1 # 10) * pow2 12)%Q 400%Q) with false. exact IH.
Qed.

Lemma pow2_le (i j : nat) : i <= j -> (pow2 i <= pow2 j)%Q.
Proof.
  intros H. unfold pow2. rewrite <- Zle_Qle.
  apply Z.pow_le_mono_r; lia.
Qed.

(** C8: when [_new_connection] gives [n] falsy results and then a handle,
    [_add_one] calls it [n + 1] times, sleeps [stime_at k] after the failed
    attempt [k], then appends the handle and releases the permit.  The delay
    starts at a tenth of a second, doubles after an attempt while it is under
    400 seconds and then stays: it is never above 409.6 seconds. *)
Theorem add_one_backoff (n fuel : nat) (s : st W) (c : Handle) (w' : W) :
  falsy_then n (app s) = Some (c, w') ->
  counter (lock (pool s)) < initial_value (lock (pool s)) ->
  n < fuel ->
  _add_one fuel s =
  (Ret tt,
   mk_st (with_lock (with_conn (pool s) (conn (pool s) ++ [c]))
            (mk_sem (S (counter (lock (pool s)))) (initial_value (lock (pool s)))))
     w' (timers s) (history s ++ attempts 0 n))
  /\ (stime_at 0 == 1 # 10)%Q
  /\ (forall k, stime_at k < 400 -> stime_at (S k) == stime_at k * 2)%Q
  /\ (forall k, 400 <= stime_at k -> stime_at (S k) == stime_at k)%Q
  /\ (forall k, stime_at k <= 4096 # 10)%Q.
Proof.
  intros Hrun Hlock Hfuel. split; [|split; [reflexivity|split; [|split]]].
  - unfold _add_one, bind.
    change (1 # 10)%Q with (stime_at 0).
    rewrite (add_one_loop_eq n 0 fuel s c w' Hrun Hfuel).
    rewrite add_one_finish_eq. simpl.
    apply Nat.ltb_lt in Hlock. rewrite Nat.ltb_antisym in Hlock.
    apply negb_true_iff in Hlock. rewrite Hlock. reflexivity.
  - intros k Hk. change (stime_at (S k)) with (next_stime (stime_at k)).
    unfold next_stime, Qlt_bool.
    destruct (Qle_bool 400 (stime_at k)) eqn:Hb; [|reflexivity].
    apply Qle_bool_iff in Hb. exfalso. apply (Qlt_not_le _ _ Hk Hb).
  - intros k Hk. change (stime_at (S k)) with (next_stime (stime_at k)).
    unfold next_stime, Qlt_bool. apply Qle_bool_iff in Hk. rewrite Hk.
    reflexivity.
  - intros k. rewrite stime_at_closed_form.
    assert (H : (pow2 (Nat.min k 12) <= pow2 12)%Q) by (apply pow2_le; lia).
    change (4096 # 10)%Q with ((1 # 10) * pow2 12)%Q.
    rewrite (Qmult_comm (1 # 10)%Q (pow2 (Nat.min k 12))).
    rewrite (Qmult_comm (1 # 10)%Q (pow2 12)).
    apply Qmult_le_compat_r; [exact H | discriminate].
Qed.

End AddOne.

(** ** Runs on the scripted application *)

Definition connection_reset : exn := mk_exn socket_error "connection reset".
Definition bad_request : exn := mk_exn (AppError 3) "bad request".
Definition close_failed : exn := mk_exn (AppError 1) "close failed".

(** Handle 7 was held and its [with] block raised [socket.error]. *)
Definition demo_lost : sys script :=
  mk_sys (mk_st (pool_of false 1 [] 0 [socket_error]) demo_app_done
            [(1%Q, AddOne)] [EvNewConnection; EvCloseConnection 7]) [] 0.

Lemma demo_lost_step :
  step demo_held (LExit 7 (Raise connection_reset) (Raise connection_reset))
    demo_lost.
Proof.
  exact (step_exit demo_held 7 [] [] (Raise connection_reset)
           (Raise connection_reset) (cur demo_lost) eq_refl
           (or_intror (ex_intro _ connection_reset eq_refl)) eq_refl).
Qed.

Lemma capacity_never_exceeded_witness :
  List.length (conn (pool (cur demo_held))) + List.length (held demo_held)
    + in_flight demo_held <= 1
  /\ List.length (held demo_held) <= 1.
Proof.
  exact (capacity_never_exceeded 1 demo_held demo_held_reachable).
Defined.

Lemma permits_bounded_by_queue_witness :
  counter (lock (pool (cur demo_idle)))
  <= List.length (conn (pool (cur demo_idle))).
Proof.
  exact (proj1 (permits_bounded_by_queue 1 demo_idle demo_idle_reachable)).
Defined.

Lemma slot_released_only_by_add_one_witness :
  pool (cur demo_lost) = pool (cur demo_held)
  /\ slots_in_use_or_free demo_lost < slots_in_use_or_free demo_held.
Proof.
  exact (proj1 (slot_released_only_by_add_one demo_held demo_lost _
                  demo_lost_step)
           7 connection_reset (Raise connection_reset) eq_refl eq_refl).
Defined.

(** The close hook of this application raises. *)
Definition failing_close_state : st script :=
  mk_st (pool_of false 1 [] 0 [socket_error])
    (mk_script [] (Raise close_failed)) [] [].

Lemma close_hook_error_escapes_witness :
  get_exit (A := unit) 7 (Raise connection_reset) failing_close_state =
  (Raise close_failed,
   mk_st (pool_of false 1 [] 0 [socket_error])
     (mk_script [] (Raise close_failed)) [] [EvCloseConnection 7]).
Proof.
  exact (close_hook_error_escapes (A := unit) 7 connection_reset close_failed
           (mk_script [] (Raise close_failed)) failing_close_state
           eq_refl eq_refl).
Defined.

Lemma unrelated_error_returns_handle_witness :
  exists s',
    get_exit (A := unit) 7 (Raise bad_request) (cur demo_held)
    = (Raise bad_request, s')
    /\ conn (pool s') = [7]
    /\ counter (lock (pool s')) = 1
    /\ timers s' = []
    /\ history s' = [EvNewConnection]
    /\ exists s'', get_acquire s' = (Ret 7, s'') /\ conn (pool s'') = [].
Proof.
  exact (unrelated_error_returns_handle (A := unit) 1 demo_held 7 [] []
           bad_request demo_held_reachable eq_refl eq_refl).
Defined.

(** The pool of [demo_idle] after [close()]. *)
Definition demo_closed : st script :=
  mk_st (pool_of true 1 [7] 1 [socket_error]) demo_app_done []
    [EvNewConnection; EvCloseConnection 7].

Lemma close_idempotent_witness :
  close (cur demo_idle) = (Ret tt, demo_closed)
  /\ closed (pool demo_closed) = true
  /\ close demo_closed = (Ret tt, demo_closed).
Proof.
  split; [reflexivity|].
  exact (proj2 (proj2 (close_idempotent (cur demo_idle) demo_closed eq_refl))).
Defined.

Lemma get_on_closed_pool_witness :
  get_enter demo_closed
  = (Raise (mk_exn TypeError "__init__() takes exactly 3 arguments"), demo_closed)
  /\ get_attempts 3 demo_closed
     = (repeat (Raise (mk_exn TypeError "__init__() takes exactly 3 arguments")) 3,
        demo_closed).
Proof.
  destruct (get_on_closed_pool (A := unit) (fun _ => ret tt) demo_closed eq_refl)
    as (H1 & _ & H3 & _).
  exact (conj H1 (H3 3)).
Defined.

(** An operation that ends as the script's next [_new_connection] does. *)
Definition scripted_op : M script unit :=
  c <- new_connection ;; ret tt.

(** An operation whose every call raises [socket.error]. *)
Definition always_reset : M script unit := raise connection_reset.

Definition retry_twice (lg : option string) : retry_args :=
  mk_retry_args DEFAULT_EXC_CLASSES lg logging_INFO (Some 2%Z) 0 logging_ERROR.

Lemma always_reset_fails (a : retry_args) :
  r_exc_classes a = DEFAULT_EXC_CLASSES -> always_fails always_reset a.
Proof.
  intros Ha s. exists connection_reset, s. rewrite Ha. split; reflexivity.
Defined.

Lemma retry_exhausts_witness :
  exists e s' t,
    fail_run always_reset DEFAULT_EXC_CLASSES 3 None (cur demo_idle)
    = Some (Some e, s')
    /\ (forall fuel, 3 <= fuel ->
        retry always_reset (retry_twice (Some "pool")) fuel (cur demo_idle)
        = (Raise e, s', t))
    /\ Z.of_nat (invocations t) = 3%Z
    /\ logged max_failure_log_message t = 1.
Proof.
  exact (retry_exhausts always_reset (retry_twice (Some "pool")) 2
           (cur demo_idle)
           (always_reset_fails (retry_twice (Some "pool")) eq_refl) eq_refl
           Z.le_0_2).
Defined.

(** The script: one [socket.error], then an error of the application. *)
Definition flaky_state : st script :=
  mk_st (pool_of false 1 [7] 1 [socket_error])
    (mk_script [Raise connection_reset; Raise bad_request] (Ret tt)) [] [].

Definition flaky_state_1 : st script :=
  mk_st (pool_of false 1 [7] 1 [socket_error])
    (mk_script [Raise bad_request] (Ret tt)) [] [EvNewConnection].

Definition flaky_state_2 : st script :=
  mk_st (pool_of false 1 [7] 1 [socket_error])
    (mk_script [] (Ret tt)) [] [EvNewConnection; EvNewConnection].

Lemma retry_unrelated_error_propagates_witness :
  retry scripted_op (retry_twice None) 5 flaky_state
  = (Raise bad_request, flaky_state_2,
     [RInvoke; RSleep 0; RFailures 1; RInvoke])
  /\ invocations [RInvoke; RSleep 0; RFailures 1; RInvoke] = 2.
Proof.
  refine (retry_unrelated_error_propagates scripted_op (retry_twice None) 1 5
            flaky_state flaky_state_1 flaky_state_2 (Some connection_reset)
            bad_request eq_refl _ eq_refl eq_refl _).
  - intros m Hm. inversion Hm. lia.
  - lia.
Defined.

(** The script: two falsy results, then handle 7. *)
Definition slow_start : st script :=
  mk_st (pool_of false 1 [] 0 [socket_error])
    (mk_script [Ret None; Ret None; Ret (Some 7)] (Ret tt)) [] [].

Lemma add_one_backoff_witness :
  _add_one 3 slow_start =
  (Ret tt,
   mk_st (pool_of false 1 [7] 1 [socket_error]) demo_app_done []
     [EvNewConnection; EvSleep (1 # 10); EvNewConnection; EvSleep (2 # 10);
      EvNewConnection]).
Proof.
  refine (proj1 (add_one_backoff 2 3 slow_start 7 demo_app_done eq_refl _ _)).
  - simpl. lia.
  - lia.
Defined.

(** C6, as claimed, for the scripted application: once for the number of
    calls, once for the max-failure message. *)
Definition retry_count_claim : Prop :=
  forall (f : M script unit) (a : retry_args) (m : Z) (s : st script),
    always_fails f a ->
    max_failures a = Some m ->
    exists fuel e s' t,
      retry f a fuel s = (Raise e, s', t)
      /\ Z.of_nat (invocations t) = (m + 1)%Z.

Definition retry_log_claim : Prop :=
  forall (f : M script unit) (a : retry_args) (m : Z) (s : st script),
    always_fails f a ->
    max_failures a = Some m ->
    exists fuel e s' t,
      retry f a fuel s = (Raise e, s', t)
      /\ logged max_failure_log_message t = 1.

(** [retry(f, max_failures=-1)] calls [f] once, not zero times; and
    [retry(f, max_failures=2)], with [logger] left at [None], logs nothing. *)
Lemma retry_claim_counterexample : ~ retry_count_claim /\ ~ retry_log_claim.
Proof.
  split.
  - intros H.
    pose (a := mk_retry_args DEFAULT_EXC_CLASSES (Some "pool") logging_INFO
                 (Some (-1)%Z) 0 logging_ERROR).
    destruct (H always_reset a (-1)%Z (cur demo_idle)
                (always_reset_fails a eq_refl) eq_refl)
      as (fuel & e & s' & t & Hr & Hn).
    destruct fuel as [|fuel]; [discriminate|].
    inversion Hr; subst. discriminate.
  - intros H.
    destruct (H always_reset (retry_twice None) 2%Z (cur demo_idle)
                (always_reset_fails (retry_twice None) eq_refl) eq_refl)
      as (fuel & e & s' & t & Hr & Hn).
    destruct fuel as [|[|[|fuel]]]; try discriminate.
    inversion Hr; subst. discriminate.
Qed.

(** * More of the pool's behaviour *)

(** ** What every interleaving keeps *)

Section Interleavings.

Context {W : Type} {hooks : Hooks W}.

(** At every suspension point the semaphore has exactly as many permits as
    the queue has idle handles, and its bound is the pool's size. *)
Theorem permits_equal_idle_handles (C : nat) (y : sys W) :
  reachable C y ->
  counter (lock (pool (cur y))) = List.length (conn (pool (cur y)))
  /\ initial_value (lock (pool (cur y))) = C
  /\ size (pool (cur y)) = C.
Proof.
  intros Hr. apply inv_reachable in Hr.
  destruct Hr as (Hsz & Hiv & Hcnt & _). repeat split; assumption.
Qed.

(** What the pool's own statements must not do in a step: [release] raising
    [ValueError], [popleft] finding the queue empty, an exception of the
    body replaced by another one. *)
Definition step_is_sound (p : ConnectionPool) (l : label) : Prop :=
  match l with
  | LAddFinish _ r => r = Ret tt
  | LEnterRaise _ => False
  | LExit _ (Ret _) r' => r' = Ret tt
  | LExit _ (Raise e) r' =>
      matches (exc_classes p) e = false -> r' = Raise e
  | _ => True
  end.

Lemma sound_under_inv (C : nat) (y y' : sys W) (l : label) :
  inv C y -> step y l y' ->
  step_is_sound (pool (cur y)) l.
Proof.
  intros Hr Hstep.
  destruct Hr as (Hsz & Hiv & Hcnt & Hcap). unfold in_flight in Hcap.
  destruct Hstep as
    [y d ts1 ts2 Hts | y d ts1 ts2 Hts | y k stime s1 s2 Hk Hnew Hsl
    | y k e s1 Hk Hnew | y k c s1 r s2 Hk Hnew Hfin
    | y e s1 Hchk | y c s1 Hent | y e s1 Hent
    | y c h1 h2 r r' s1 Hheld Hr Hex | y w | y]; simpl in *; try exact I.
  - apply new_connection_pool in Hnew. destruct Hnew as [Hp Ht].
    rewrite add_one_finish_eq, Hp in Hfin.
    destruct (_ <=? _) eqn:Hle; [apply Nat.leb_le in Hle; lia|].
    now inversion Hfin.
  - rewrite get_acquire_eq in Hent.
    destruct (counter (lock (pool (cur y)))) as [|k] eqn:Hc; [discriminate|].
    destruct (conn (pool (cur y))) as [|c' q] eqn:Hq; simpl in *; discriminate.
  - rewrite Hheld, length_app in Hcap. simpl in Hcap.
    assert (Hle : (initial_value (lock (pool (cur y)))
                   <=? counter (lock (pool (cur y)))) = false)
      by (apply Nat.leb_gt; lia).
    destruct Hr as [-> | [e ->]].
    + rewrite get_exit_ret_eq, add_one_finish_eq, Hle in Hex. now inversion Hex.
    + intros Hm.
      rewrite (get_exit_other_eq _ _ _ Hm), add_one_finish_eq, Hle in Hex.
      now inversion Hex.
Qed.

(** From a reachable state the semaphore is never released too many times
    and [get] never pops an empty queue: [_add_one] and a clean exit end
    normally, and an exception outside the pool's classes leaves [get] as it
    came. *)
Theorem release_and_popleft_never_fail (C : nat) (y y' : sys W) (l : label) :
  reachable C y -> step y l y' ->
  step_is_sound (pool (cur y)) l.
Proof.
  intros Hr Hstep. apply inv_reachable in Hr.
  eapply sound_under_inv; eassumption.
Qed.

(** The slots a pool still has: idle, checked out or being refilled. *)
Definition slots (y : sys W) : nat :=
  List.length (conn (pool (cur y))) + List.length (held y) + in_flight y.

(** No step gives a slot back: once a slot is lost (a dead [_add_one], a
    close hook that raised), the pool runs below its size from then on. *)
Theorem lost_slot_never_recovered (y y' : sys W) (l : label) :
  step y l y' -> slots y' <= slots y.
Proof.
  unfold slots, in_flight, scheduled. intros Hstep.
  destruct Hstep as
    [y d ts1 ts2 Hts | y d ts1 ts2 Hts | y k stime s1 s2 Hk Hnew Hsl
    | y k e s1 Hk Hnew | y k c s1 r s2 Hk Hnew Hfin
    | y e s1 Hchk | y c s1 Hent | y e s1 Hent
    | y c h1 h2 r r' s1 Hheld Hr Hex | y w | y]; simpl in *.
  - rewrite Hts, !filter_length_app. simpl. lia.
  - rewrite Hts, !filter_length_app. simpl. lia.
  - apply new_connection_pool in Hnew. destruct Hnew as [Hp Ht].
    unfold sleep, log_event in Hsl. inversion Hsl; subst; simpl.
    rewrite Hp, Ht. lia.
  - apply new_connection_pool in Hnew. destruct Hnew as [Hp Ht].
    rewrite Hp, Ht. lia.
  - apply new_connection_pool in Hnew. destruct Hnew as [Hp Ht].
    rewrite add_one_finish_eq, Hp in Hfin.
    destruct (_ <=? _); inversion Hfin; subst; simpl;
      rewrite Ht, length_app; simpl; lia.
  - rewrite get_check_eq in Hchk.
    destruct (closed (pool (cur y))); inversion Hchk; subst; lia.
  - rewrite get_acquire_eq in Hent.
    destruct (counter (lock (pool (cur y)))) as [|k]; [discriminate|].
    destruct (conn (pool (cur y))) as [|c' q]; [discriminate|].
    inversion Hent; subst; simpl. lia.
  - rewrite get_acquire_eq in Hent.
    destruct (counter (lock (pool (cur y)))) as [|k]; [discriminate|].
    destruct (conn (pool (cur y))) as [|c' q] eqn:Hq; [|discriminate].
    inversion Hent; subst; simpl. rewrite Hq. simpl. lia.
  - rewrite Hheld, !length_app. simpl.
    destruct Hr as [-> | [e ->]].
    + rewrite get_exit_ret_eq, add_one_finish_eq in Hex.
      destruct (_ <=? _); inversion Hex; subst; simpl;
        rewrite length_app; simpl; lia.
    + destruct (matches (exc_classes (pool (cur y))) e) eqn:Hm.
      * rewrite (get_exit_failure_eq _ _ _ Hm) in Hex. simpl in Hex.
        destruct (fst (_close_connection c (app (cur y)))) as [[]| | |];
          inversion Hex; subst; simpl; rewrite ?filter_length_app; simpl; lia.
      * rewrite (get_exit_other_eq _ _ _ Hm), add_one_finish_eq in Hex.
        destruct (_ <=? _); inversion Hex; subst; simpl;
          rewrite length_app; simpl; lia.
  - lia.
  - lia.
Qed.

(** The hooks of an application that never fails: [_new_connection]
    returns (a handle or a falsy value) and [_close_connection] returns. *)
Definition hooks_return : Prop :=
  (forall w, exists r w', _new_connection w = (Ret r, w'))
  /\ (forall c w, exists w', _close_connection c w = (Ret tt, w')).

(** When the hooks never raise, no slot is ever lost: the idle handles, the
    handles checked out and the connections being created are exactly as
    many as the pool's size, in every reachable state. *)
Theorem no_slot_lost_when_hooks_return (C : nat) (y : sys W) :
  hooks_return -> reachable C y -> slots y = C.
Proof.
  intros [Hnewok Hcloseok] Hr. unfold slots.
  induction Hr as [classes ka w s0 Hinit | y l y' Hr IH Hstep].
  - rewrite init_eq in Hinit. inversion Hinit; subst; clear Hinit.
    unfold in_flight, scheduled; simpl.
    rewrite filter_length_app, spawn_times_scheduled.
    destruct (truthy_keepalive ka); simpl; lia.
  - pose proof (sound_under_inv C y y' l (inv_reachable C y Hr) Hstep)
      as Hsound.
    unfold in_flight, scheduled in *.
    destruct Hstep as
      [y d ts1 ts2 Hts | y d ts1 ts2 Hts | y k stime s1 s2 Hk Hnew Hsl
      | y k e s1 Hk Hnew | y k c s1 r s2 Hk Hnew Hfin
      | y e s1 Hchk | y c s1 Hent | y e s1 Hent
      | y c h1 h2 r r' s1 Hheld Hr' Hex | y w | y]; simpl in *.
    + rewrite Hts, filter_length_app in IH. simpl in IH.
      rewrite filter_length_app. lia.
    + rewrite Hts, filter_length_app in IH. simpl in IH.
      rewrite filter_length_app. lia.
    + apply new_connection_pool in Hnew. destruct Hnew as [Hp Ht].
      unfold sleep, log_event in Hsl. inversion Hsl; subst; simpl.
      rewrite Hp, Ht. lia.
    + exfalso. unfold new_connection, call_hook in Hnew.
      destruct (Hnewok (app (cur y))) as (r0 & w0 & Hw). rewrite Hw in Hnew.
      discriminate.
    + subst r. apply new_connection_pool in Hnew. destruct Hnew as [Hp Ht].
      rewrite add_one_finish_eq, Hp in Hfin.
      destruct (_ <=? _); inversion Hfin; subst; simpl;
        rewrite Ht, length_app; simpl; lia.
    + rewrite get_check_eq in Hchk.
      destruct (closed (pool (cur y))); inversion Hchk; subst; lia.
    + rewrite get_acquire_eq in Hent.
      destruct (counter (lock (pool (cur y)))) as [|k]; [discriminate|].
      destruct (conn (pool (cur y))) as [|c' q]; [discriminate|].
      inversion Hent; subst; simpl in *. lia.
    + contradiction.
    + rewrite Hheld, length_app in IH. simpl in IH. rewrite length_app.
      destruct Hr' as [-> | [e ->]].
      * subst r'. rewrite get_exit_ret_eq, add_one_finish_eq in Hex.
        destruct (_ <=? _); inversion Hex; subst; simpl;
          rewrite length_app; simpl; lia.
      * destruct (matches (exc_classes (pool (cur y))) e) eqn:Hm.
        -- rewrite (get_exit_failure_eq _ _ _ Hm) in Hex. simpl in Hex.
           destruct (Hcloseok c (app (cur y))) as (w0 & Hw).
           rewrite Hw in Hex. simpl in Hex.
           inversion Hex; subst; simpl. rewrite filter_length_app. simpl. lia.
        -- rewrite (get_exit_other_eq _ _ _ Hm), add_one_finish_eq in Hex.
           destruct (_ <=? _); inversion Hex; subst; simpl;
             rewrite length_app; simpl; lia.
    + lia.
    + lia.
Qed.

(** The pool's configuration never changes and the flag only goes up:
    once [closed] is set, no step clears it. *)
Theorem closed_is_monotone (y y' : sys W) (l : label) :
  step y l y' ->
  size (pool (cur y')) = size (pool (cur y))
  /\ exc_classes (pool (cur y')) = exc_classes (pool (cur y))
  /\ (closed (pool (cur y)) = true -> closed (pool (cur y')) = true).
Proof.
  intros Hstep.
  destruct Hstep as
    [y d ts1 ts2 Hts | y d ts1 ts2 Hts | y k stime s1 s2 Hk Hnew Hsl
    | y k e s1 Hk Hnew | y k c s1 r s2 Hk Hnew Hfin
    | y e s1 Hchk | y c s1 Hent | y e s1 Hent
    | y c h1 h2 r r' s1 Hheld Hr Hex | y w | y]; simpl;
    try (repeat split; auto; fail).
  - apply new_connection_pool in Hnew. destruct Hnew as [Hp _].
    unfold sleep, log_event in Hsl. inversion Hsl; subst; simpl. rewrite Hp.
    repeat split; auto.
  - apply new_connection_pool in Hnew. destruct Hnew as [Hp _]. rewrite Hp.
    repeat split; auto.
  - apply new_connection_pool in Hnew. destruct Hnew as [Hp _].
    apply add_one_finish_extends in Hfin.
    destruct Hfin as ((Hc & Hs & Hx & _) & _). rewrite Hc, Hs, Hx, Hp.
    repeat split; auto.
  - rewrite get_check_eq in Hchk.
    destruct (closed (pool (cur y))) eqn:Hcl; inversion Hchk; subst;
      repeat split; auto.
  - apply get_acquire_extends in Hent.
    destruct Hent as ((Hc & Hs & Hx & _) & _). rewrite Hc, Hs, Hx.
    repeat split; auto.
  - apply get_acquire_extends in Hent.
    destruct Hent as ((Hc & Hs & Hx & _) & _). rewrite Hc, Hs, Hx.
    repeat split; auto.
  - apply get_exit_extends in Hex.
    destruct Hex as (Hc & Hs & Hx & _). rewrite Hc, Hs, Hx.
    repeat split; auto.
Qed.

(** The handles the pool answers for: idle or checked out. *)
Definition owned (y : sys W) : list Handle :=
  conn (pool (cur y)) ++ held y.

(** A handle is never in two places: as long as [_new_connection] does not
    return a handle the pool already has, no handle is twice in the queue,
    held by two [with] blocks, or both idle and held. *)
Theorem handles_stay_distinct (y y' : sys W) (l : label) :
  NoDup (owned y) ->
  step y l y' ->
  (forall c r, l = LAddFinish c r -> ~ In c (owned y)) ->
  NoDup (owned y').
Proof.
  unfold owned. intros Hnd Hstep Hfresh.
  destruct Hstep as
    [y d ts1 ts2 Hts | y d ts1 ts2 Hts | y k stime s1 s2 Hk Hnew Hsl
    | y k e s1 Hk Hnew | y k c s1 r s2 Hk Hnew Hfin
    | y e s1 Hchk | y c s1 Hent | y e s1 Hent
    | y c h1 h2 r r' s1 Hheld Hr Hex | y w | y]; simpl in *;
    try exact Hnd.
  - apply new_connection_pool in Hnew. destruct Hnew as [Hp _].
    unfold sleep, log_event in Hsl. inversion Hsl; subst; simpl.
    now rewrite Hp.
  - apply new_connection_pool in Hnew. destruct Hnew as [Hp _].
    now rewrite Hp.
  - specialize (Hfresh c r eq_refl).
    apply new_connection_pool in Hnew. destruct Hnew as [Hp _].
    rewrite add_one_finish_eq, Hp in Hfin.
    assert (Hgoal : NoDup ((conn (pool (cur y)) ++ [c]) ++ held y)).
    { rewrite <- app_assoc. simpl.
      eapply Permutation_NoDup; [apply Permutation_middle|].
      now constructor. }
    destruct (_ <=? _); inversion Hfin; subst; simpl; exact Hgoal.
  - rewrite get_check_eq in Hchk.
    destruct (closed (pool (cur y))); inversion Hchk; subst; exact Hnd.
  - rewrite get_acquire_eq in Hent.
    destruct (counter (lock (pool (cur y)))) as [|k]; [discriminate|].
    destruct (conn (pool (cur y))) as [|c' q]; [discriminate|].
    inversion Hent; subst; simpl in *.
    eapply Permutation_NoDup; [apply Permutation_middle | exact Hnd].
  - rewrite get_acquire_eq in Hent.
    destruct (counter (lock (pool (cur y)))) as [|k]; [discriminate|].
    destruct (conn (pool (cur y))) as [|c' q] eqn:Hq; [|discriminate].
    inversion Hent; subst; simpl. now rewrite Hq.
  - rewrite Hheld in Hnd.
    assert (Hdrop : NoDup (conn (pool (cur y)) ++ h1 ++ h2)).
    { rewrite app_assoc in Hnd |- *. now apply NoDup_remove_1 in Hnd. }
    assert (Hback : NoDup ((conn (pool (cur y)) ++ [c]) ++ h1 ++ h2)).
    { rewrite <- app_assoc. simpl.
      eapply Permutation_NoDup; [|exact Hnd].
      apply Permutation_app_head. symmetry. apply Permutation_middle. }
    destruct Hr as [-> | [e ->]].
    + rewrite get_exit_ret_eq, add_one_finish_eq in Hex.
      destruct (_ <=? _); inversion Hex; subst; simpl; exact Hback.
    + destruct (matches (exc_classes (pool (cur y))) e) eqn:Hm.
      * rewrite (get_exit_failure_eq _ _ _ Hm) in Hex. simpl in Hex.
        destruct (fst (_close_connection c (app (cur y)))) as [[]| | |];
          inversion Hex; subst; simpl; exact Hdrop.
      * rewrite (get_exit_other_eq _ _ _ Hm), add_one_finish_eq in Hex.
        destruct (_ <=? _); inversion Hex; subst; simpl; exact Hback.
Qed.

End Interleavings.

(** ** The base class, and an application that never fails *)

(** With the hooks of [ConnectionPool] itself, [_new_connection] raises
    [NotImplementedError] in every [_add_one]: the queue stays empty, the
    semaphore has no permit, and no [with] block is ever entered. *)
Theorem base_class_pool_stays_empty {W : Type} (C : nat) (y : sys W) :
  reachable (hooks := BaseHooks W) C y ->
  conn (pool (cur y)) = []
  /\ counter (lock (pool (cur y))) = 0
  /\ held y = [].
Proof.
  induction 1 as [classes ka w s0 Hinit | y l y' Hr IH Hstep].
  - rewrite init_eq in Hinit. inversion Hinit; subst. repeat split.
  - destruct IH as (Hq & Hc & Hh).
    destruct Hstep as
      [y d ts1 ts2 Hts | y d ts1 ts2 Hts | y k stime s1 s2 Hk Hnew Hsl
      | y k e s1 Hk Hnew | y k c s1 r s2 Hk Hnew Hfin
      | y e s1 Hchk | y c s1 Hent | y e s1 Hent
      | y c h1 h2 r r' s1 Hheld Hr' Hex | y w | y]; simpl in *;
      try (repeat split; assumption).
    + discriminate.
    + inversion Hnew; subst. repeat split; assumption.
    + discriminate.
    + rewrite get_check_eq in Hchk.
      destruct (closed (pool (cur y))); inversion Hchk; subst;
        repeat split; assumption.
    + rewrite get_acquire_eq, Hc in Hent. discriminate.
    + rewrite get_acquire_eq, Hc in Hent. discriminate.
    + rewrite Hh in Hheld. destruct h1; discriminate.
Qed.

(** An application whose [n]-th connection is the handle [n] and whose
    hooks always return. *)
#[global] Instance FreshHooks : Hooks nat := {|
  _new_connection := fun w => (Ret (Some w), S w);
  _keepalive := fun _ w => (Ret tt, w);
  _close_connection := fun _ w => (Ret tt, w)
|}.

Lemma fresh_hooks_return : hooks_return (hooks := FreshHooks).
Proof.
  split.
  - intros w. exists (Some w), (S w). reflexivity.
  - intros c w. exists w. reflexivity.
Qed.

(** ** Construction *)

Section Fresh.

Context {W : Type} {hooks : Hooks W}.

Lemma spawn_times_nth (n : nat) :
  forall i j, i < n ->
    nth_error (spawn_times j n) i
    = Some ((SPAWN_FREQUENCY * inject_Z (Z.of_nat (j + i)))%Q, AddOne).
Proof.
  induction n as [|n IH]; intros i j Hi; [lia|].
  destruct i as [|i]; simpl.
  - now rewrite Nat.add_0_r.
  - rewrite IH by lia. now rewrite Nat.add_succ_r.
Qed.

(** [__init__] never waits and never raises.  It leaves an empty queue and
    no permit, so a [with pool.get()] on the new pool waits, its body not
    run; the [i]-th [_add_one] is scheduled [0.1 * i] seconds ahead; and
    [_keepalive_periodic] is started exactly when [keepalive] is neither
    [None] nor zero. *)
Theorem new_pool_is_empty_and_staggered {A} (sz : nat)
  (classes : list exc_class) (ka : option Q) (w : W)
  (body : Handle -> M W A) :
  exists s0,
    ConnectionPool_init sz classes ka w = (Ret tt, s0)
    /\ conn (pool s0) = []
    /\ with_get body s0 = (Blocked, s0)
    /\ scheduled s0 = sz
    /\ (forall i, i < sz ->
        nth_error (timers s0) i
        = Some ((SPAWN_FREQUENCY * inject_Z (Z.of_nat i))%Q, AddOne))
    /\ (In (0%Q, KeepalivePeriodic) (timers s0)
        <-> truthy_keepalive ka = true).
Proof.
  eexists. split; [apply init_eq|]. simpl.
  split; [reflexivity|]. split; [reflexivity|].
  split; [|split].
  - unfold scheduled. simpl.
    rewrite filter_length_app, spawn_times_scheduled.
    destruct (truthy_keepalive ka); simpl; lia.
  - intros i Hi. rewrite nth_error_app1.
    + now rewrite spawn_times_nth.
    + apply nth_error_Some. rewrite spawn_times_nth by assumption. discriminate.
  - split.
    + intros Hin. apply in_app_iff in Hin. destruct Hin as [Hin|Hin].
      * exfalso. apply In_nth_error in Hin. destruct Hin as [i Hi].
        assert (Hlt : i < sz).
        { destruct (Nat.lt_ge_cases i sz) as [Hl|Hg]; [exact Hl|].
          assert (Hnone : nth_error (spawn_times 0 sz) i = None).
          { apply nth_error_None.
            clear Hi. revert Hg. generalize 0 at 1.
            induction sz as [|sz IHsz] in i |- *; intros j Hg; simpl; [lia|].
            destruct i as [|i]; [lia|]. simpl.
            specialize (IHsz i (S j)). lia. }
          rewrite Hnone in Hi. discriminate. }
        rewrite spawn_times_nth in Hi by assumption. discriminate.
      * destruct (truthy_keepalive ka); [reflexivity | destruct Hin].
    + intros Hk. rewrite Hk. apply in_app_iff. right. now left.
Qed.

End Fresh.

(** ** One [with pool.get()] block, run to its end *)

Section GetRuns.

Context {W : Type} {hooks : Hooks W}.

(** The state in which the body of the block runs: a permit and the front
    handle taken. *)
Definition entered (s : st W) : st W :=
  with_pool s
    (with_conn
       (with_lock (pool s)
          (mk_sem (pred (counter (lock (pool s))))
             (initial_value (lock (pool s)))))
       (tl (conn (pool s)))).

Lemma get_enter_entered (s : st W) (c : Handle) (q : list Handle) (k : nat) :
  closed (pool s) = false ->
  conn (pool s) = c :: q ->
  counter (lock (pool s)) = S k ->
  get_enter s = (Ret c, entered s).
Proof.
  intros Hcl Hq Hk. rewrite get_enter_eq, Hcl, get_acquire_eq, Hk, Hq.
  unfold entered. rewrite Hk, Hq. reflexivity.
Qed.

(** A block whose body returns gives the body's value; the pool is then
    what it was before the block, except that the handle used has gone from
    the front of the queue to its back. *)
Theorem with_get_rotates_queue {A} (body : Handle -> M W A) (s s2 : st W)
  (c : Handle) (q : list Handle) (k : nat) (v : A) :
  closed (pool s) = false ->
  conn (pool s) = c :: q ->
  counter (lock (pool s)) = S k ->
  S k <= initial_value (lock (pool s)) ->
  body c (entered s) = (Ret v, s2) ->
  pool s2 = pool (entered s) ->
  with_get body s = (Ret v, with_pool s2 (with_conn (pool s) (q ++ [c]))).
Proof.
  intros Hcl Hq Hk Hi Hb Hp.
  unfold with_get, bind. rewrite (get_enter_entered s c q k Hcl Hq Hk), Hb.
  unfold get_exit, bind, conn_append, lock_release, sem_release, set_pool, ret.
  simpl. rewrite Hp. unfold entered. simpl. rewrite Hk, Hq. simpl.
  assert (Hle : (initial_value (lock (pool s)) <=? k) = false)
    by (apply Nat.leb_gt; lia).
  rewrite Hle. unfold with_pool, with_conn, with_lock. simpl.
  destruct s as [[cl sz cn [cnt i] ka ex] w ts h]. simpl in *. subst.
  reflexivity.
Qed.

(** A block whose body raises an exception of the pool's classes, the close
    hook returning: the exception comes out, the handle is closed and is
    gone from the pool, [_add_one] is scheduled one second ahead, and the
    pool is one permit short until that [_add_one] ends. *)
Theorem with_get_drops_failed_handle {A} (body : Handle -> M W A)
  (s s2 : st W) (c : Handle) (q : list Handle) (k : nat) (e : exn) (w' : W) :
  closed (pool s) = false ->
  conn (pool s) = c :: q ->
  counter (lock (pool s)) = S k ->
  body c (entered s) = (Raise e, s2) ->
  pool s2 = pool (entered s) ->
  matches (exc_classes (pool s)) e = true ->
  _close_connection c (app s2) = (Ret tt, w') ->
  exists s',
    with_get body s = (Raise e, s')
    /\ conn (pool s') = q
    /\ counter (lock (pool s')) = k
    /\ timers s' = timers s2 ++ [(1%Q, AddOne)]
    /\ history s' = history s2 ++ [EvCloseConnection c]
    /\ app s' = w'.
Proof.
  intros Hcl Hq Hk Hb Hp Hm Hh.
  unfold with_get, bind. rewrite (get_enter_entered s c q k Hcl Hq Hk), Hb.
  assert (Hm2 : matches (exc_classes (pool s2)) e = true)
    by (rewrite Hp; exact Hm).
  rewrite (get_exit_failure_eq _ _ _ Hm2), Hh. simpl.
  eexists. split; [reflexivity|]. simpl. rewrite Hp. unfold entered. simpl.
  rewrite Hk, Hq. repeat split.
Qed.

End GetRuns.

(** ** [_add_one] that does not succeed, and the refill after a failure *)

Section AddOneRuns.

Context {W : Type} {hooks : Hooks W}.

(** [n] falsy results of [_new_connection] in a row, then an exception. *)
Fixpoint falsy_then_raise (n : nat) (w : W) : option (exn * W) :=
  match n with
  | O =>
      match _new_connection w with
      | (Raise e, w') => Some (e, w')
      | _ => None
      end
  | S n' =>
      match _new_connection w with
      | (Ret None, w') => falsy_then_raise n' w'
      | _ => None
      end
  end.

Lemma add_one_loop_raises (n : nat) :
  forall (k fuel : nat) (s : st W) (e : exn) (w' : W),
    falsy_then_raise n (app s) = Some (e, w') ->
    n < fuel ->
    _add_one_loop fuel (stime_at k) s =
    (Raise e, mk_st (pool s) w' (timers s) (history s ++ attempts k n)).
Proof.
  induction n as [|n IH]; intros k fuel s e w' Hrun Hfuel;
    (destruct fuel as [|fuel]; [lia|]); simpl in Hrun |- *;
    unfold bind, new_connection, call_hook;
    destruct (_new_connection (app s)) as [[[c0|]|e0| |] w1]; try discriminate.
  - inversion Hrun; subst. reflexivity.
  - unfold sleep, log_event. simpl.
    change (next_stime (stime_at k)) with (stime_at (S k)).
    rewrite (IH (S k) fuel _ e w'); [|exact Hrun | lia].
    simpl. rewrite <- !app_assoc. reflexivity.
Qed.

(** When [_new_connection] raises, after any number of falsy results, the
    exception ends [_add_one]: nothing is appended and no permit is
    released, so the slot the greenlet was to fill stays empty. *)
Theorem add_one_dies_with_the_hook (n fuel : nat) (s : st W) (e : exn)
  (w' : W) :
  falsy_then_raise n (app s) = Some (e, w') ->
  n < fuel ->
  _add_one fuel s =
  (Raise e, mk_st (pool s) w' (timers s) (history s ++ attempts 0 n)).
Proof.
  intros Hrun Hfuel. unfold _add_one, bind.
  change (1 # 10)%Q with (stime_at 0).
  rewrite (add_one_loop_raises n 0 fuel s e w' Hrun Hfuel). reflexivity.
Qed.

Definition is_sleep_event (ev : event) : bool :=
  match ev with EvSleep _ => true | _ => false end.

Lemma add_one_loop_never_ends (fuel : nat) :
  (forall w, exists w', _new_connection w = (Ret None, w')) ->
  forall (stime : Q) (s : st W),
  exists s',
    _add_one_loop fuel stime s = (OutOfFuel, s')
    /\ pool s' = pool s
    /\ timers s' = timers s
    /\ exists t, history s' = history s ++ t
         /\ List.length (filter is_sleep_event t) = fuel.
Proof.
  intros Hfalsy. induction fuel as [|fuel IH]; intros stime s; simpl.
  - exists s. repeat split. exists []. now rewrite app_nil_r.
  - unfold bind, new_connection, call_hook.
    destruct (Hfalsy (app s)) as [w1 Hw]. rewrite Hw.
    unfold sleep, log_event. simpl.
    destruct (IH (next_stime stime)
                (mk_st (pool s) w1 (timers s)
                   ((history s ++ [EvNewConnection]) ++ [EvSleep stime])))
      as (s' & Hrun & Hp & Ht & t & Hh & Hn).
    exists s'. rewrite Hrun. simpl in *.
    split; [reflexivity|]. split; [exact Hp|]. split; [exact Ht|].
    exists ([EvNewConnection; EvSleep stime] ++ t).
    split; [rewrite Hh, <- !app_assoc; reflexivity|].
    rewrite filter_length_app. simpl. now rewrite Hn.
Qed.

(** While [_new_connection] keeps giving falsy results [_add_one] goes on for
    ever: however many attempts it is given, it has slept after each, has
    not ended, and the pool is as it was (no handle, no permit). *)
Theorem add_one_retries_for_ever (fuel : nat) (s : st W) :
  (forall w, exists w', _new_connection w = (Ret None, w')) ->
  exists s',
    _add_one fuel s = (OutOfFuel, s')
    /\ pool s' = pool s
    /\ timers s' = timers s
    /\ exists t, history s' = history s ++ t
         /\ List.length (filter is_sleep_event t) = fuel.
Proof.
  intros Hfalsy.
  destruct (add_one_loop_never_ends fuel Hfalsy (1 # 10)%Q s)
    as (s' & Hrun & Hrest).
  exists s'. unfold _add_one, bind. rewrite Hrun. split; [reflexivity|].
  exact Hrest.
Qed.

(** A failed connection and its replacement: after [get] has dropped the
    handle [c] and the [_add_one] it scheduled has obtained [c'], the pool
    has the permit back and [c'] at the back of the queue. *)
Theorem failure_then_add_one_refills (c c' : Handle) (e : exn) (s : st W)
  (w1 w2 : W) (n fuel : nat) :
  matches (exc_classes (pool s)) e = true ->
  _close_connection c (app s) = (Ret tt, w1) ->
  falsy_then n w1 = Some (c', w2) ->
  counter (lock (pool s)) < initial_value (lock (pool s)) ->
  n < fuel ->
  exists s1 s2,
    get_exit (A := unit) c (Raise e) s = (Raise e, s1)
    /\ In (1%Q, AddOne) (timers s1)
    /\ pool s1 = pool s
    /\ _add_one fuel s1 = (Ret tt, s2)
    /\ conn (pool s2) = conn (pool s) ++ [c']
    /\ counter (lock (pool s2)) = S (counter (lock (pool s))).
Proof.
  intros Hm Hh Hrun Hlock Hfuel.
  eexists. eexists.
  split; [rewrite (get_exit_failure_eq _ _ _ Hm), Hh; reflexivity|]. simpl.
  split; [apply in_app_iff; right; now left|].
  split; [reflexivity|].
  unfold _add_one, bind. change (1 # 10)%Q with (stime_at 0).
  rewrite (add_one_loop_eq n 0 fuel _ c' w2); [|exact Hrun | exact Hfuel].
  rewrite add_one_finish_eq. simpl.
  assert (Hle : (initial_value (lock (pool s)) <=? counter (lock (pool s)))
                = false) by (apply Nat.leb_gt; lia).
  rewrite Hle. split; [reflexivity|]. simpl. split; reflexivity.
Qed.

End AddOneRuns.

(** ** [close] when the hook fails or no handle is idle *)

Section CloseRuns.

Context {W : Type} {hooks : Hooks W}.

(** [close] on an open pool with no idle handle waits at its first [get]:
    nothing is closed and the flag is not set. *)
Theorem close_waits_for_a_handle (s : st W) (n : nat) :
  closed (pool s) = false ->
  size (pool s) = S n ->
  counter (lock (pool s)) = 0 ->
  close s = (Blocked, s).
Proof.
  intros Hcl Hsz Hk. unfold close, bind, get_pool. rewrite Hcl, Hsz. simpl.
  unfold bind, close_one, try_except, with_get, bind, get_pool.
  rewrite get_enter_eq, Hcl, get_acquire_eq, Hk. reflexivity.
Qed.

(** When the close hook raises an exception outside the pool's classes on
    the first handle, [close] raises it: the handle is back in the queue with
    its permit, the other handles are not closed, and the pool is not marked
    closed. *)
Theorem close_raises_and_stays_open (s : st W) (c : Handle)
  (q : list Handle) (e : exn) (w' : W) (n : nat) :
  closed (pool s) = false ->
  size (pool s) = S n ->
  conn (pool s) = c :: q ->
  counter (lock (pool s)) = S (List.length q) ->
  S (List.length q) <= initial_value (lock (pool s)) ->
  _close_connection c (app s) = (Raise e, w') ->
  matches (exc_classes (pool s)) e = false ->
  close s =
  (Raise e,
   mk_st (with_conn (pool s) (q ++ [c])) w' (timers s)
     (history s ++ [EvCloseConnection c]))
  /\ closed (with_conn (pool s) (q ++ [c])) = false.
Proof.
  intros Hcl Hsz Hq Hk Hi Hh Hm. split; [|exact Hcl].
  unfold close, bind, get_pool. rewrite Hcl, Hsz. simpl.
  unfold bind, close_one, try_except, with_get, bind, get_pool.
  rewrite (get_enter_entered s c q _ Hcl Hq Hk).
  unfold close_connection at 1. unfold call_hook. simpl. rewrite Hh.
  assert (Hm2 : matches (exc_classes (pool
                 (mk_st (pool (entered s)) w' (timers (entered s))
                    (history (entered s) ++ [EvCloseConnection c])))) e = false)
    by exact Hm.
  rewrite (get_exit_other_eq _ _ _ Hm2), add_one_finish_eq. simpl.
  rewrite Hk, Hq. simpl.
  assert (Hle : (initial_value (lock (pool s)) <=? List.length q) = false)
    by (apply Nat.leb_gt; lia).
  rewrite Hle, Hm. unfold with_pool, with_lock, with_conn. simpl.
  destruct s as [[cl sz cn [k i] ka ex] w ts h]. simpl in *. subst.
  reflexivity.
Qed.

(** One pass of [close] on a handle the hook cannot close at first: when
    the hook raises an exception of the pool's classes, [get] calls the hook
    on the same handle once more and, that call returning, schedules
    [_add_one]; [close] takes the exception as handled.  The pass ends
    normally with the handle gone and a permit short. *)
Lemma close_pass_swallows_connection_failure (s : st W) (c : Handle)
  (q : list Handle) (k : nat) (e : exn) (w1 w2 : W) :
  closed (pool s) = false ->
  conn (pool s) = c :: q ->
  counter (lock (pool s)) = S k ->
  _close_connection c (app s) = (Raise e, w1) ->
  matches (exc_classes (pool s)) e = true ->
  _close_connection c w1 = (Ret tt, w2) ->
  close_one s =
  (Ret tt,
   mk_st (pool (entered s)) w2 (timers s ++ [(1%Q, AddOne)])
     (history s ++ [EvCloseConnection c; EvCloseConnection c])).
Proof.
  intros Hcl Hq Hk Hh Hm Hh2.
  unfold close_one, try_except, with_get, bind, get_pool.
  rewrite (get_enter_entered s c q _ Hcl Hq Hk).
  unfold close_connection at 1. unfold call_hook. simpl. rewrite Hh.
  rewrite get_exit_failure_eq by exact Hm. simpl. rewrite Hh2. simpl.
  rewrite Hm. unfold ret. rewrite <- app_assoc. reflexivity.
Qed.

(** So [close] on a pool of one slot returns with the pool closed and an
    [_add_one] still scheduled: a connection is created for the closed
    pool a second later. *)
Theorem close_schedules_a_replacement (s : st W) (c : Handle) (e : exn)
  (w1 w2 : W) :
  closed (pool s) = false ->
  size (pool s) = 1 ->
  conn (pool s) = [c] ->
  counter (lock (pool s)) = 1 ->
  _close_connection c (app s) = (Raise e, w1) ->
  matches (exc_classes (pool s)) e = true ->
  _close_connection c w1 = (Ret tt, w2) ->
  exists s',
    close s = (Ret tt, s')
    /\ closed (pool s') = true
    /\ conn (pool s') = []
    /\ timers s' = timers s ++ [(1%Q, AddOne)].
Proof.
  intros Hcl Hsz Hq Hk Hh Hm Hh2.
  unfold close, bind, get_pool. rewrite Hcl, Hsz. simpl. unfold bind.
  rewrite (close_pass_swallows_connection_failure s c [] 0 e w1 w2
             Hcl Hq Hk Hh Hm Hh2).
  unfold ret, set_pool. simpl. eexists. split; [reflexivity|].
  simpl. rewrite Hq. repeat split.
Qed.

End CloseRuns.

(** ** [_keepalive_periodic] *)

Section Keepalive.

Context {W : Type} {hooks : Hooks W}.

(** The exception Python raises for [x / 0]; its class, ZeroDivisionError,
    is none of [exc_class]. *)
Variable zero_division : exn.

(** [self._keepalive(c)] *)
Definition keepalive_probe (c : Handle) : M W unit :=
  fun s => let (r, w) := _keepalive c (app s) in (r, with_app s w).

(** The [try] statement of the loop. *)
Definition keepalive_round : M W unit :=
  p <- get_pool ;;
  try_except (with_get keepalive_probe) (exc_classes p) (fun _ => ret tt).

(** The [while True] of [_keepalive_periodic]; [fuel] bounds the rounds. *)
Fixpoint keepalive_loop (fuel : nat) (delay : Q) : M W unit :=
  match fuel with
  | O => fun s => (OutOfFuel, s)
  | S fuel' => keepalive_round ;;; sleep delay ;;; keepalive_loop fuel' delay
  end.

(** [float(self.keepalive) / self.size] *)
Definition keepalive_delay (p : ConnectionPool) : exn + Q :=
  match keepalive p with
  | None =>
      inl (mk_exn TypeError "float() argument must be a string or a number")
  | Some k =>
      if size p =? 0 then inl zero_division
      else inr (k / inject_Z (Z.of_nat (size p)))%Q
  end.

Definition _keepalive_periodic (fuel : nat) : M W unit :=
  p <- get_pool ;;
  if closed p then ret tt
  else
    match keepalive_delay p with
    | inl e => raise e
    | inr delay => keepalive_loop fuel delay
    end.

(** The application's state after the keepalive hook has returned on each
    handle of [q] in turn. *)
Fixpoint app_after_probes (q : list Handle) (w : W) : option W :=
  match q with
  | [] => Some w
  | c :: q' =>
      match _keepalive c w with
      | (Ret _, w') => app_after_probes q' w'
      | _ => None
      end
  end.

Lemma keepalive_round_healthy (s : st W) (c : Handle) (q : list Handle)
  (w' : W) :
  closed (pool s) = false ->
  conn (pool s) = c :: q ->
  counter (lock (pool s)) = S (List.length q) ->
  S (List.length q) <= initial_value (lock (pool s)) ->
  _keepalive c (app s) = (Ret tt, w') ->
  keepalive_round s =
  (Ret tt, mk_st (with_conn (pool s) (q ++ [c])) w' (timers s) (history s)).
Proof.
  intros Hcl Hq Hk Hi Hh.
  unfold keepalive_round, try_except, with_get, bind, get_pool.
  rewrite (get_enter_entered s c q _ Hcl Hq Hk).
  unfold keepalive_probe at 1. simpl. rewrite Hh.
  rewrite get_exit_ret_eq, add_one_finish_eq. simpl. rewrite Hk, Hq. simpl.
  assert (Hle : (initial_value (lock (pool s)) <=? List.length q) = false)
    by (apply Nat.leb_gt; lia).
  rewrite Hle. unfold with_pool, with_lock, with_conn. simpl.
  destruct s as [[cl sz cn [k i] ka ex] w ts h]. simpl in *. subst. reflexivity.
Qed.

Lemma keepalive_loop_probes (q1 : list Handle) :
  forall (s : st W) (q2 : list Handle) (w' : W) (delay : Q),
    closed (pool s) = false ->
    conn (pool s) = q1 ++ q2 ->
    counter (lock (pool s)) = List.length (q1 ++ q2) ->
    List.length (q1 ++ q2) <= initial_value (lock (pool s)) ->
    app_after_probes q1 (app s) = Some w' ->
    keepalive_loop (List.length q1) delay s =
    (OutOfFuel,
     mk_st (with_conn (pool s) (q2 ++ q1)) w' (timers s)
       (history s ++ repeat (EvSleep delay) (List.length q1))).
Proof.
  induction q1 as [|c q1 IH]; intros s q2 w' delay Hcl Hq Hk Hi Hw;
    simpl in *.
  - inversion Hw; subst w'. rewrite !app_nil_r, <- Hq.
    destruct s as [[cl sz cn lk ka ex] w ts h]. reflexivity.
  - destruct (_keepalive c (app s)) as [[[]| | |] w1] eqn:Hh; try discriminate.
    unfold bind.
    rewrite (keepalive_round_healthy s c (q1 ++ q2) w1 Hcl Hq Hk Hi Hh).
    unfold sleep, log_event. simpl.
    rewrite (IH _ (q2 ++ [c]) w' delay); simpl; try assumption.
    + unfold with_conn. simpl. rewrite <- !app_assoc. reflexivity.
    + now rewrite <- app_assoc.
    + rewrite Hk, !length_app. simpl. lia.
    + rewrite !length_app in *. simpl in *. lia.
Qed.

(** One full turn of the keepalive greenlet on a pool whose [size] handles
    are all idle and answer the probe: it probes each handle once, in queue
    order, sleeps [keepalive / size] after each probe, leaves the queue and
    the permits as they were, and has not ended. *)
Theorem keepalive_probes_every_handle (s : st W) (k : Q) (w' : W) (n : nat) :
  closed (pool s) = false ->
  keepalive (pool s) = Some k ->
  size (pool s) = S n ->
  List.length (conn (pool s)) = S n ->
  counter (lock (pool s)) = S n ->
  initial_value (lock (pool s)) = S n ->
  app_after_probes (conn (pool s)) (app s) = Some w' ->
  _keepalive_periodic (S n) s =
  (OutOfFuel,
   mk_st (pool s) w' (timers s)
     (history s ++ repeat (EvSleep (k / inject_Z (Z.of_nat (S n)))%Q) (S n))).
Proof.
  intros Hcl Hka Hsz Hlen Hk Hi Hw.
  unfold _keepalive_periodic, bind, get_pool, keepalive_delay.
  rewrite Hcl, Hka, Hsz. cbn [Nat.eqb]. rewrite <- Hlen.
  rewrite (keepalive_loop_probes (conn (pool s)) s [] w');
    rewrite ?app_nil_r; try assumption; try lia; [|reflexivity].
  unfold with_conn. simpl.
  destruct s as [[cl sz cn lk ka ex] w ts h]. reflexivity.
Qed.

(** A probe that raises an exception of the pool's classes does not end the
    greenlet: [get] closes the handle and schedules [_add_one], the loop
    takes the exception as handled and goes on to sleep and to the next
    round, the pool being one handle and one permit short. *)
Theorem keepalive_survives_connection_failure (fuel : nat) (delay : Q)
  (s : st W) (c : Handle) (q : list Handle) (k : nat) (e : exn) (w1 w2 : W) :
  closed (pool s) = false ->
  conn (pool s) = c :: q ->
  counter (lock (pool s)) = S k ->
  _keepalive c (app s) = (Raise e, w1) ->
  matches (exc_classes (pool s)) e = true ->
  _close_connection c w1 = (Ret tt, w2) ->
  keepalive_loop (S fuel) delay s =
  keepalive_loop fuel delay
    (mk_st (pool (entered s)) w2 (timers s ++ [(1%Q, AddOne)])
       (history s ++ [EvCloseConnection c; EvSleep delay])).
Proof.
  intros Hcl Hq Hk Hh Hm Hh2. cbn [keepalive_loop].
  unfold bind at 1. unfold keepalive_round, try_except, with_get, bind,
    get_pool.
  rewrite (get_enter_entered s c q _ Hcl Hq Hk).
  unfold keepalive_probe at 1. simpl. rewrite Hh.
  rewrite get_exit_failure_eq by exact Hm. simpl. rewrite Hh2. simpl.
  rewrite Hm. unfold ret, sleep, log_event. simpl.
  rewrite <- app_assoc. simpl.
  destruct (keepalive_loop fuel delay _) as [[[]| | |] sf]; reflexivity.
Qed.

(** A probe that raises any other exception ends the greenlet with it (so
    does the [_keepalive] of the base class, with NotImplementedError): the
    handle is back in the queue with its permit, and no further probe or
    sleep follows. *)
Theorem keepalive_dies_on_other_errors (fuel : nat) (delay : Q) (s : st W)
  (c : Handle) (q : list Handle) (e : exn) (w' : W) :
  closed (pool s) = false ->
  conn (pool s) = c :: q ->
  counter (lock (pool s)) = S (List.length q) ->
  S (List.length q) <= initial_value (lock (pool s)) ->
  _keepalive c (app s) = (Raise e, w') ->
  matches (exc_classes (pool s)) e = false ->
  keepalive_loop (S fuel) delay s =
  (Raise e, mk_st (with_conn (pool s) (q ++ [c])) w' (timers s) (history s)).
Proof.
  intros Hcl Hq Hk Hi Hh Hm. cbn [keepalive_loop].
  unfold bind at 1. unfold keepalive_round, try_except, with_get, bind,
    get_pool.
  rewrite (get_enter_entered s c q _ Hcl Hq Hk).
  unfold keepalive_probe at 1. simpl. rewrite Hh.
  assert (Hm2 : matches (exc_classes (pool (with_app (entered s) w'))) e
                = false) by exact Hm.
  rewrite (get_exit_other_eq _ _ _ Hm2), add_one_finish_eq. simpl.
  rewrite Hk, Hq. simpl.
  assert (Hle : (initial_value (lock (pool s)) <=? List.length q) = false)
    by (apply Nat.leb_gt; lia).
  rewrite Hle, Hm. unfold with_pool, with_lock, with_conn. simpl.
  destruct s as [[cl sz cn [k i] ka ex] w ts h]. simpl in *. subst.
  reflexivity.
Qed.

(** Closing the pool stops the keepalive greenlet: started on a closed pool
    it returns at once; and a round that finds the pool closed ends the
    greenlet with the [TypeError] that [get] raises there, unless the pool's
    classes take that exception too.  No probe is made and the state is
    unchanged. *)
Theorem keepalive_stops_on_closed_pool (fuel : nat) (delay : Q) (s : st W) :
  closed (pool s) = true ->
  _keepalive_periodic fuel s = (Ret tt, s)
  /\ (matches (exc_classes (pool s)) (instantiate ClosedPoolError []) = false ->
      keepalive_loop (S fuel) delay s
      = (Raise (instantiate ClosedPoolError []), s)).
Proof.
  intros Hcl. split.
  - unfold _keepalive_periodic, bind, get_pool. now rewrite Hcl.
  - intros Hm. cbn [keepalive_loop].
    unfold bind at 1. unfold keepalive_round, try_except, with_get, bind,
      get_pool.
    rewrite get_enter_eq, Hcl, Hm. reflexivity.
Qed.

End Keepalive.

(** ** More runs of [retry] *)

Section RetryRuns.

Context {W A : Type}.
Variable f : M W A.
Variable a : retry_args.

Definition sleeps (t : list retry_event) : nat :=
  List.length (filter is_sleep t).

Lemma sleeps_app (t1 t2 : list retry_event) :
  sleeps (t1 ++ t2) = sleeps t1 + sleeps t2.
Proof. unfold sleeps. now rewrite filter_app, length_app. Qed.

Lemma counts_after_failure (e : exn) (n : Z) :
  sleeps (after_failure a e n) = 1
  /\ logged retry_log_message (after_failure a e n) = one_if_logger a
  /\ Forall (fun ev => forall d, ev = RSleep d -> d = interval a)
       (after_failure a e n).
Proof.
  unfold after_failure, log_if_logger, one_if_logger.
  destruct (logger a); repeat split; repeat constructor;
    intros d Hd; try discriminate; now inversion Hd.
Qed.

Lemma counts_exhaustion_log (e : exn) :
  sleeps (exhaustion_log a e) = 0
  /\ logged retry_log_message (exhaustion_log a e) = 0.
Proof.
  unfold exhaustion_log, log_if_logger. destruct (logger a); split; reflexivity.
Qed.

(** How a call that is not retried ends the loop. *)
Definition final (r : res A) : Prop :=
  match r with
  | Raise e => matches (r_exc_classes a) e = false
  | _ => True
  end.

Lemma deco_loop_final (fuel : nat) (failures : Z) (s s' : st W) (r : res A) :
  f s = (r, s') -> final r ->
  deco_loop f a (S fuel) failures s = (r, s', [RInvoke]).
Proof.
  intros Hf Hr. simpl. rewrite Hf.
  destruct r as [v|e| |]; try reflexivity.
  simpl in Hr. now rewrite Hr.
Qed.

Lemma retry_ends_from (k : nat) :
  forall (fuel : nat) (failures : Z) (s sk s' : st W) (last last' : option exn)
         (r : res A),
    fail_run f (r_exc_classes a) k last s = Some (last', sk) ->
    (forall m, max_failures a = Some m -> (failures + Z.of_nat k <= m)%Z) ->
    f sk = (r, s') ->
    final r ->
    k < fuel ->
    deco_loop f a fuel failures s
    = (r, s', retries_trace f a k failures s ++ [RInvoke])
    /\ invocations (retries_trace f a k failures s) = k
    /\ sleeps (retries_trace f a k failures s) = k
    /\ logged retry_log_message (retries_trace f a k failures s)
       = k * one_if_logger a
    /\ logged max_failure_log_message (retries_trace f a k failures s) = 0.
Proof.
  induction k as [|k IH];
    intros fuel failures s sk s' last last' r Hrun Hmax Hf Hr Hfuel.
  - simpl in Hrun. inversion Hrun; subst.
    destruct fuel as [|fuel]; [lia|].
    split; [now apply deco_loop_final|]. repeat split.
  - simpl in Hrun.
    destruct (f s) as [[v|e1| |] s1] eqn:Hf1; try discriminate.
    destruct (matches (r_exc_classes a) e1) eqn:Hm1; [|discriminate].
    destruct fuel as [|fuel]; [lia|].
    assert (Hx : exhausted a (failures + 1) = false).
    { unfold exhausted. destruct (max_failures a) as [m|] eqn:Hmf; [|reflexivity].
      specialize (Hmax m eq_refl). apply Z.ltb_ge. lia. }
    destruct (IH fuel (failures + 1)%Z s1 sk s' (Some e1) last' r Hrun)
      as (Hd & Hi & Hs & Hl & Hx0); try assumption; try lia.
    { intros m Hmf. specialize (Hmax m Hmf). lia. }
    rewrite (deco_loop_again _ _ _ _ _ _ _ Hf1 Hm1 Hx), Hd.
    cbn [retries_trace]. rewrite Hf1, <- app_assoc.
    destruct (counts_after_failure e1 (failures + 1)) as (Hs1 & Hl1 & _).
    split; [reflexivity|].
    rewrite invocations_app, sleeps_app, !logged_app,
      invocations_after_failure, logged_max_after_failure, Hs1, Hl1,
      Hi, Hs, Hl, Hx0.
    repeat split; lia.
Qed.


Lemma retry_unbounded_from (fuel : nat) :
  always_fails f a ->
  max_failures a = None ->
  forall (failures : Z) (s : st W),
  exists s' t,
    deco_loop f a fuel failures s = (OutOfFuel, s', t)
    /\ invocations t = fuel
    /\ sleeps t = fuel.
Proof.
  intros Hall Hmf. induction fuel as [|fuel IH]; intros failures s.
  - exists s, []. repeat split.
  - destruct (Hall s) as (e & s1 & Hf & Hm).
    assert (Hx : exhausted a (failures + 1) = false)
      by (unfold exhausted; now rewrite Hmf).
    destruct (IH (failures + 1)%Z s1) as (s' & t & Hd & Hi & Hs).
    exists s', (after_failure a e (failures + 1) ++ t).
    rewrite (deco_loop_again _ _ _ _ _ _ _ Hf Hm Hx), Hd.
    destruct (counts_after_failure e (failures + 1)) as (Hs1 & _ & _).
    split; [reflexivity|].
    rewrite invocations_app, sleeps_app, invocations_after_failure, Hs1, Hi, Hs.
    split; reflexivity.
Qed.

(** With [max_failures] left at [None] the wrapper never gives up: on an
    [f] whose every call raises a designated exception, the wrapped call has
    not ended after any number of calls of [f], each followed by a sleep. *)
Theorem retry_without_maximum_never_ends (fuel : nat) (s : st W) :
  always_fails f a ->
  max_failures a = None ->
  exists s' t,
    retry f a fuel s = (OutOfFuel, s', t)
    /\ invocations t = fuel
    /\ sleeps t = fuel.
Proof.
  intros Hall Hmf. unfold retry, deco.
  exact (retry_unbounded_from fuel Hall Hmf 0%Z s).
Qed.

Lemma retry_gives_up_from (j : nat) :
  forall (failures m : Z) (s : st W),
    always_fails f a ->
    max_failures a = Some m ->
    (failures + Z.of_nat j = m)%Z ->
    exists e s' t,
      (forall fuel, j < fuel ->
          deco_loop f a fuel failures s = (Raise e, s', t))
      /\ sleeps t = S j
      /\ logged retry_log_message t = S j * one_if_logger a
      /\ exists t0, t = t0 ++ [RSleep (interval a); RFailures (m + 1)]
                          ++ exhaustion_log a e.
Proof.
  induction j as [|j IH]; intros failures m s Hall Hmf Hsum;
    destruct (Hall s) as (e & s1 & Hf & Hm);
    destruct (counts_after_failure e (failures + 1)) as (Hs1 & Hl1 & _).
  - exists e, s1, (after_failure a e (failures + 1) ++ exhaustion_log a e).
    assert (Hx : exhausted a (failures + 1) = true).
    { unfold exhausted. rewrite Hmf. apply Z.ltb_lt. lia. }
    split.
    { intros [|fuel] Hfuel; [lia|]. now apply deco_loop_give_up. }
    destruct (counts_exhaustion_log e) as (Hs2 & Hl2).
    rewrite sleeps_app, logged_app, Hs1, Hl1, Hs2, Hl2.
    split; [reflexivity|]. split; [lia|].
    exists ([RInvoke] ++ log_if_logger a (retry_log_level a) retry_log_message e).
    unfold after_failure. replace (failures + 1)%Z with (m + 1)%Z by lia.
    now rewrite <- !app_assoc.
  - assert (Hx : exhausted a (failures + 1) = false).
    { unfold exhausted. rewrite Hmf. apply Z.ltb_ge. lia. }
    destruct (IH (failures + 1)%Z m s1 Hall Hmf) as
      (e' & s' & t & Hd & Hs & Hl & t0 & Ht0); try lia.
    exists e', s', (after_failure a e (failures + 1) ++ t).
    split.
    { intros [|fuel] Hfuel; [lia|].
      rewrite (deco_loop_again _ _ _ _ _ _ _ Hf Hm Hx), Hd by lia. reflexivity. }
    rewrite sleeps_app, logged_app, Hs1, Hl1, Hs, Hl.
    split; [reflexivity|]. split; [lia|].
    exists (after_failure a e (failures + 1) ++ t0).
    rewrite Ht0. now rewrite <- !app_assoc.
Qed.

(** Giving up is not immediate: on an [f] that always fails, with
    [max_failures = m >= 0], the wrapper sleeps [interval] after each of the
    [m + 1] failed calls, the last one too, and logs the retry message after
    each when there is a logger; only then does it log the max-failure
    message and raise. *)
Theorem retry_sleeps_before_giving_up (m : Z) (s : st W) :
  always_fails f a ->
  max_failures a = Some m ->
  (0 <= m)%Z ->
  exists e s' t t0,
    (forall fuel, Z.to_nat m + 1 <= fuel -> retry f a fuel s = (Raise e, s', t))
    /\ sleeps t = Z.to_nat m + 1
    /\ logged retry_log_message t = (Z.to_nat m + 1) * one_if_logger a
    /\ t = t0 ++ [RSleep (interval a); RFailures (m + 1)] ++ exhaustion_log a e.
Proof.
  intros Hall Hmf Hm.
  destruct (retry_gives_up_from (Z.to_nat m) 0 m s Hall Hmf)
    as (e & s' & t & Hd & Hs & Hl & t0 & Ht0); try lia.
  exists e, s', t, t0. rewrite Nat.add_1_r.
  split; [|repeat split; assumption].
  intros fuel Hfuel. unfold retry, deco. apply Hd. lia.
Qed.

End RetryRuns.

(** ** [retry] around a [with pool.get()] block *)

Section RetryOnPool.

Context {W A : Type} {hooks : Hooks W}.

Variable bad : Handle -> bool.   (* the connections that are broken *)
Variable e : exn.                (* what using a broken connection raises *)
Variable v : A.                  (* what using a sound one returns *)
Variable a : retry_args.

(** The work done on the connection: it touches nothing but the handle. *)
Definition use_connection (c : Handle) : M W A :=
  fun s => (if bad c then Raise e else Ret v, s).

(** What [get]'s callers share with the pool while they run. *)
Definition ready (s : st W) (q : list Handle) : Prop :=
  closed (pool s) = false
  /\ conn (pool s) = q
  /\ counter (lock (pool s)) = List.length q
  /\ List.length q <= initial_value (lock (pool s))
  /\ matches (exc_classes (pool s)) e = true.

Hypothesis close_returns :
  forall c w, exists w', _close_connection c w = (Ret tt, w').

Lemma use_broken_connection (s : st W) (c : Handle) (q : list Handle) :
  ready s (c :: q) -> bad c = true ->
  exists s1,
    with_get use_connection s = (Raise e, s1)
    /\ ready s1 q
    /\ scheduled s1 = S (scheduled s).
Proof.
  intros (Hcl & Hq & Hk & Hi & Hm) Hbad.
  unfold with_get, bind.
  rewrite (get_enter_entered s c q (List.length q) Hcl Hq Hk).
  unfold use_connection at 1. rewrite Hbad.
  assert (Hm2 : matches (exc_classes (pool (entered s))) e = true) by exact Hm.
  rewrite (get_exit_failure_eq _ _ _ Hm2).
  destruct (close_returns c (app (entered s))) as [w' Hw]. rewrite Hw. simpl.
  eexists. split; [reflexivity|]. unfold ready, scheduled; simpl.
  rewrite Hk, Hq, filter_length_app. simpl in *.
  repeat split; try assumption; lia.
Qed.

Lemma use_broken_connections (bads : list Handle) :
  forall (s : st W) (q : list Handle) (last : option exn),
    ready s (bads ++ q) ->
    Forall (fun c => bad c = true) bads ->
    matches (r_exc_classes a) e = true ->
    exists last' sk,
      fail_run (with_get use_connection) (r_exc_classes a)
        (List.length bads) last s = Some (last', sk)
      /\ ready sk q
      /\ scheduled sk = scheduled s + List.length bads.
Proof.
  induction bads as [|c bads IH]; intros s q last Hready Hbads Hma.
  - exists last, s. simpl. split; [reflexivity|]. split; [exact Hready | lia].
  - inversion Hbads as [|c0 l0 Hc Hrest]; subst.
    destruct (use_broken_connection s c (bads ++ q) Hready Hc)
      as (s1 & Hrun & Hready1 & Hsch).
    destruct (IH s1 q (Some e) Hready1 Hrest Hma) as (last' & sk & Hfr & Hrk & Hsk).
    exists last', sk. cbn [fail_run List.length]. rewrite Hrun, Hma.
    split; [exact Hfr|]. split; [exact Hrk | lia].
Qed.

(** [retry] around a block that uses a pooled connection, as the docstring
    of [get] advises: when the first handles of the queue are broken and the
    next one is sound, each failed call drops one broken handle and
    schedules its replacement, and the call that follows takes the next
    handle; the wrapped call returns the value obtained on the sound handle,
    which goes back to the queue. *)
Theorem retry_moves_on_to_a_sound_connection (s : st W)
  (bads : list Handle) (good : Handle) (q : list Handle) (fuel : nat) :
  ready s (bads ++ good :: q) ->
  Forall (fun c => bad c = true) bads ->
  bad good = false ->
  matches (r_exc_classes a) e = true ->
  (forall m, max_failures a = Some m -> (Z.of_nat (List.length bads) <= m)%Z) ->
  List.length bads < fuel ->
  exists s' t,
    retry (with_get use_connection) a fuel s = (Ret v, s', t)
    /\ conn (pool s') = q ++ [good]
    /\ counter (lock (pool s')) = S (List.length q)
    /\ scheduled s' = scheduled s + List.length bads
    /\ invocations t = S (List.length bads).
Proof.
  intros Hready Hbads Hgood Hma Hmax Hfuel.
  destruct (use_broken_connections bads s (good :: q) None Hready Hbads Hma)
    as (last' & sk & Hfr & (Hcl & Hq & Hk & Hi & Hm) & Hsk).
  assert (Hlast : exists s',
             with_get use_connection sk = (Ret v, s')
             /\ conn (pool s') = q ++ [good]
             /\ counter (lock (pool s')) = S (List.length q)
             /\ scheduled s' = scheduled sk).
  { unfold with_get, bind.
    rewrite (get_enter_entered sk good q (List.length q) Hcl Hq Hk).
    unfold use_connection at 1. rewrite Hgood.
    unfold get_exit, bind, conn_append, lock_release, sem_release, set_pool,
      ret. simpl. rewrite Hk, Hq. simpl.
    assert (Hle : (initial_value (lock (pool sk)) <=? List.length q) = false)
      by (apply Nat.leb_gt; simpl in Hi; lia).
    rewrite Hle. eexists. split; [reflexivity|]. repeat split. }
  destruct Hlast as (s' & Hrun & Hq' & Hk' & Hs').
  destruct (retry_ends_from (with_get use_connection) a (List.length bads)
              fuel 0 s sk s' None last' (Ret v) Hfr)
    as (Hd & Hi' & _); try assumption; try exact I.
  exists s', (retries_trace (with_get use_connection) a (List.length bads) 0 s
              ++ [RInvoke]).
  split; [exact Hd|]. repeat split; try assumption; try lia.
  rewrite invocations_app, Hi'. unfold invocations. simpl. lia.
Qed.

End RetryOnPool.

(** ** More runs on scripted applications *)

(** An application whose endpoint is down: every [_new_connection] gives a
    falsy result. *)
#[global] Instance DownHooks : Hooks unit := {|
  _new_connection := fun w => (Ret None, w);
  _keepalive := fun _ w => (Ret tt, w);
  _close_connection := fun _ w => (Ret tt, w)
|}.

(** An application whose probes and closes end as a list says, in order
    (and return once the list is over). *)
Definition replay (w : list (res unit)) : res unit * list (res unit) :=
  match w with
  | [] => (Ret tt, [])
  | r :: rest => (r, rest)
  end.

#[global] Instance ReplayHooks : Hooks (list (res unit)) := {|
  _new_connection := fun w => (Ret None, w);
  _keepalive := fun _ w => replay w;
  _close_connection := fun _ w => replay w
|}.

Definition two_idle {W} (w : W) (ka : option Q) : st W :=
  mk_st (mk_pool false 2 [7; 8] (mk_sem 2 2) ka [socket_error]) w [] [].

Definition one_idle {W} (w : W) : st W :=
  mk_st (pool_of false 1 [7] 1 [socket_error]) w [] [].

Lemma demo_adding_reachable : reachable 1 demo_adding.
Proof.
  eapply reachable_step; [exact demo_new_reachable | exact demo_adding_step].
Qed.

Lemma permits_equal_idle_handles_witness :
  counter (lock (pool (cur demo_idle))) = 1
  /\ initial_value (lock (pool (cur demo_idle))) = 1
  /\ size (pool (cur demo_idle)) = 1.
Proof.
  exact (permits_equal_idle_handles 1 demo_idle demo_idle_reachable).
Defined.

Lemma release_and_popleft_never_fail_witness :
  step_is_sound (pool (cur demo_adding)) (LAddFinish 7 (Ret tt)).
Proof.
  exact (release_and_popleft_never_fail 1 demo_adding demo_idle _
           demo_adding_reachable demo_idle_step).
Defined.

Lemma lost_slot_never_recovered_witness : slots demo_lost <= slots demo_held.
Proof.
  exact (lost_slot_never_recovered demo_held demo_lost _ demo_lost_step).
Defined.

(** A pool of two slots for the application that never fails, new. *)
Definition fresh_new : sys nat :=
  mk_sys (snd (ConnectionPool_init 2 [socket_error] None 0)) [] 0.

Lemma fresh_new_reachable : reachable 2 fresh_new.
Proof.
  apply (reachable_init 2 [socket_error] None 0). reflexivity.
Qed.

Lemma no_slot_lost_when_hooks_return_witness : slots fresh_new = 2.
Proof.
  exact (no_slot_lost_when_hooks_return 2 fresh_new fresh_hooks_return
           fresh_new_reachable).
Defined.

(** A caller that was waiting takes handle 7 after the pool was closed. *)
Lemma late_enter_step :
  step (mk_sys demo_closed [] 0) (LEnter 7)
    (mk_sys (entered demo_closed) [7] 0).
Proof.
  exact (step_enter (mk_sys demo_closed [] 0) 7 (entered demo_closed) eq_refl).
Qed.

Lemma closed_is_monotone_witness :
  size (pool (entered demo_closed)) = 1
  /\ exc_classes (pool (entered demo_closed)) = [socket_error]
  /\ closed (pool (entered demo_closed)) = true.
Proof.
  destruct (closed_is_monotone (mk_sys demo_closed [] 0)
              (mk_sys (entered demo_closed) [7] 0) (LEnter 7) late_enter_step)
    as (H1 & H2 & H3).
  exact (conj H1 (conj H2 (H3 eq_refl))).
Defined.

Lemma handles_stay_distinct_witness : NoDup (owned demo_held).
Proof.
  refine (handles_stay_distinct demo_idle demo_held (LEnter 7) _
            demo_held_step _).
  - repeat constructor. intros [].
  - intros c r Hl. discriminate.
Defined.

Definition base_new : sys unit :=
  mk_sys (snd (ConnectionPool_init 3 [socket_error] None tt)) [] 0.

Lemma base_class_pool_stays_empty_witness :
  conn (pool (cur base_new)) = []
  /\ counter (lock (pool (cur base_new))) = 0
  /\ held base_new = [].
Proof.
  exact (base_class_pool_stays_empty 3 base_new
           (reachable_init (hooks := BaseHooks unit) 3 [socket_error] None tt
              (cur base_new) eq_refl)).
Defined.

Lemma with_get_rotates_queue_witness :
  with_get (fun _ => ret 42) (two_idle demo_app None)
  = (Ret 42,
     mk_st (mk_pool false 2 [8; 7] (mk_sem 2 2) None [socket_error])
       demo_app [] []).
Proof.
  refine (with_get_rotates_queue (fun _ => ret 42) (two_idle demo_app None)
            _ 7 [8] 1 42 eq_refl eq_refl eq_refl _ eq_refl eq_refl).
  simpl. lia.
Defined.

Lemma with_get_drops_failed_handle_witness :
  exists s',
    with_get (A := unit) (fun _ => raise connection_reset)
      (two_idle demo_app None)
    = (Raise connection_reset, s')
    /\ conn (pool s') = [8]
    /\ counter (lock (pool s')) = 1
    /\ timers s' = [(1%Q, AddOne)]
    /\ history s' = [EvCloseConnection 7]
    /\ app s' = demo_app.
Proof.
  exact (with_get_drops_failed_handle (A := unit)
           (fun _ => raise connection_reset) (two_idle demo_app None) _
           7 [8] 1 connection_reset demo_app
           eq_refl eq_refl eq_refl eq_refl eq_refl eq_refl eq_refl).
Defined.

(** The script: a falsy result, then an error of the application. *)
Definition dying_start : st script :=
  mk_st (pool_of false 1 [] 0 [socket_error])
    (mk_script [Ret None; Raise bad_request] (Ret tt)) [] [].

Lemma add_one_dies_with_the_hook_witness :
  _add_one 5 dying_start
  = (Raise bad_request,
     mk_st (pool_of false 1 [] 0 [socket_error]) (mk_script [] (Ret tt)) []
       [EvNewConnection; EvSleep (1 # 10); EvNewConnection]).
Proof.
  refine (add_one_dies_with_the_hook 1 5 dying_start bad_request
            (mk_script [] (Ret tt)) eq_refl _).
  lia.
Defined.

Lemma add_one_retries_for_ever_witness :
  exists s',
    _add_one 4 (mk_st (pool_of false 1 [] 0 [socket_error]) tt [] [])
    = (OutOfFuel, s')
    /\ pool s' = pool_of false 1 [] 0 [socket_error]
    /\ timers s' = []
    /\ exists t, history s' = [] ++ t
         /\ List.length (filter is_sleep_event t) = 4.
Proof.
  refine (add_one_retries_for_ever 4
            (mk_st (pool_of false 1 [] 0 [socket_error]) tt [] []) _).
  intros w. exists w. reflexivity.
Defined.

Lemma failure_then_add_one_refills_witness :
  exists s1 s2,
    get_exit (A := unit) 7 (Raise connection_reset) (cur demo_new)
    = (Raise connection_reset, s1)
    /\ In (1%Q, AddOne) (timers s1)
    /\ pool s1 = pool (cur demo_new)
    /\ _add_one 1 s1 = (Ret tt, s2)
    /\ conn (pool s2) = [7]
    /\ counter (lock (pool s2)) = 1.
Proof.
  refine (failure_then_add_one_refills 7 7 connection_reset (cur demo_new)
            demo_app demo_app_done 0 1 eq_refl eq_refl eq_refl _ _);
    simpl; lia.
Defined.

Lemma close_all_idle_witness :
  close (two_idle demo_app None)
  = (Ret tt,
     mk_st (mk_pool true 2 [7; 8] (mk_sem 2 2) None [socket_error]) demo_app []
       [EvCloseConnection 7; EvCloseConnection 8]).
Proof.
  exact (close_all_idle (two_idle demo_app None) demo_app
           eq_refl eq_refl eq_refl eq_refl eq_refl).
Defined.

Lemma close_waits_for_a_handle_witness :
  close (cur demo_held) = (Blocked, cur demo_held).
Proof.
  exact (close_waits_for_a_handle (cur demo_held) 0 eq_refl eq_refl eq_refl).
Defined.

Lemma close_raises_and_stays_open_witness :
  close (two_idle (mk_script [] (Raise bad_request)) None)
  = (Raise bad_request,
     mk_st (mk_pool false 2 [8; 7] (mk_sem 2 2) None [socket_error])
       (mk_script [] (Raise bad_request)) [] [EvCloseConnection 7]).
Proof.
  refine (proj1 (close_raises_and_stays_open
            (two_idle (mk_script [] (Raise bad_request)) None) 7 [8]
            bad_request (mk_script [] (Raise bad_request)) 1
            eq_refl eq_refl eq_refl eq_refl _ eq_refl eq_refl)).
  simpl. lia.
Defined.

Lemma close_schedules_a_replacement_witness :
  exists s',
    close (one_idle [Raise connection_reset]) = (Ret tt, s')
    /\ closed (pool s') = true
    /\ conn (pool s') = []
    /\ timers s' = [(1%Q, AddOne)].
Proof.
  exact (close_schedules_a_replacement (one_idle [Raise connection_reset]) 7
           connection_reset [] [] eq_refl eq_refl eq_refl eq_refl eq_refl
           eq_refl eq_refl).
Defined.

Definition float_division_by_zero : exn :=
  mk_exn Exception_ "float division by zero".

Lemma keepalive_probes_every_handle_witness :
  _keepalive_periodic float_division_by_zero 2 (two_idle 0 (Some 10%Q))
  = (OutOfFuel,
     mk_st (pool (two_idle 0 (Some 10%Q))) 0 []
       [EvSleep (10 / inject_Z 2); EvSleep (10 / inject_Z 2)]).
Proof.
  exact (keepalive_probes_every_handle float_division_by_zero
           (two_idle 0 (Some 10%Q)) 10 0 1
           eq_refl eq_refl eq_refl eq_refl eq_refl eq_refl eq_refl).
Defined.

Lemma keepalive_survives_connection_failure_witness :
  keepalive_loop 1 5 (one_idle [Raise connection_reset])
  = keepalive_loop 0 5
      (mk_st (pool_of false 1 [] 0 [socket_error]) [] [(1%Q, AddOne)]
         [EvCloseConnection 7; EvSleep 5]).
Proof.
  exact (keepalive_survives_connection_failure 0 5
           (one_idle [Raise connection_reset]) 7 [] 0 connection_reset [] []
           eq_refl eq_refl eq_refl eq_refl eq_refl eq_refl).
Defined.

Lemma keepalive_dies_on_other_errors_witness :
  keepalive_loop (hooks := BaseHooks unit) 3 5 (one_idle tt)
  = (Raise (mk_exn NotImplementedError ""), one_idle tt).
Proof.
  refine (keepalive_dies_on_other_errors (hooks := BaseHooks unit) 2 5
            (one_idle tt) 7 [] (mk_exn NotImplementedError "") tt
            eq_refl eq_refl eq_refl _ eq_refl eq_refl).
  simpl. lia.
Defined.

Lemma keepalive_stops_on_closed_pool_witness :
  _keepalive_periodic float_division_by_zero 3 demo_closed
  = (Ret tt, demo_closed)
  /\ keepalive_loop 3 5 demo_closed
     = (Raise (mk_exn TypeError "__init__() takes exactly 3 arguments"),
        demo_closed).
Proof.
  destruct (keepalive_stops_on_closed_pool float_division_by_zero 2 5
              demo_closed eq_refl) as [H1 H2].
  exact (conj H1 (H2 eq_refl)).
Defined.


Definition retry_five (lg : option string) : retry_args :=
  mk_retry_args DEFAULT_EXC_CLASSES lg logging_INFO (Some 5%Z) 0 logging_ERROR.


Lemma retry_without_maximum_never_ends_witness :
  exists s' t,
    retry always_reset default_retry_args 4 (cur demo_idle)
    = (OutOfFuel, s', t)
    /\ invocations t = 4
    /\ sleeps t = 4.
Proof.
  exact (retry_without_maximum_never_ends always_reset default_retry_args 4
           (cur demo_idle) (always_reset_fails default_retry_args eq_refl)
           eq_refl).
Defined.

Lemma retry_sleeps_before_giving_up_witness :
  exists e s' t t0,
    (forall fuel, 3 <= fuel ->
       retry always_reset (retry_twice (Some "pool")) fuel (cur demo_idle)
       = (Raise e, s', t))
    /\ sleeps t = 3
    /\ logged retry_log_message t = 3
    /\ t = t0 ++ [RSleep 0; RFailures 3]
              ++ exhaustion_log (retry_twice (Some "pool")) e.
Proof.
  exact (retry_sleeps_before_giving_up always_reset (retry_twice (Some "pool"))
           2 (cur demo_idle)
           (always_reset_fails (retry_twice (Some "pool")) eq_refl) eq_refl
           Z.le_0_2).
Defined.

(** Four idle handles, of which 0 and 1 are broken. *)
Definition four_idle : st nat :=
  mk_st (mk_pool false 4 [0; 1; 2; 3] (mk_sem 4 4) None [socket_error]) 9 [] [].

Lemma retry_moves_on_to_a_sound_connection_witness :
  exists s' t,
    retry (with_get (use_connection (fun c => c <? 2) connection_reset 42))
      (retry_five None) 3 four_idle
    = (Ret 42, s', t)
    /\ conn (pool s') = [3; 2]
    /\ counter (lock (pool s')) = 2
    /\ scheduled s' = 2
    /\ invocations t = 3.
Proof.
  refine (retry_moves_on_to_a_sound_connection (fun c => c <? 2)
            connection_reset 42 (retry_five None) _ four_idle [0; 1] 2 [3] 3
            _ _ eq_refl eq_refl _ _).
  - intros c w. exists w. reflexivity.
  - repeat split. simpl. lia.
  - repeat constructor.
  - intros m Hm. inversion Hm. simpl. lia.
  - simpl. lia.
Defined.
